(** * AVL tree of [include/avl.hpp]: shallow embedding and verification

    The class template [AVL<T>] is embedded at the element type [int]
    (the type used by the scenarios of the specification); elements are
    only compared, never computed with, so they are modelled as [Z].
    The cached [int height] of a node is a [Z] as well: stored heights
    grow with the depth of the tree only, far from the range where [int]
    arithmetic would wrap.

    A [TreeNode*] is either [nullptr] or the address of a node owning its
    two children, hence an inductive type.  The C++ code updates the tree
    through [TreeNode*&] references; the embedding passes the subtree in
    and the updated subtree out.  Dereferencing a null pointer is
    undefined behaviour in C++: the functions that dereference a child
    pointer return [None] there, and the development proves that no
    state reachable through the public interface ever does so. *)

From Stdlib Require Import ZArith List Bool Lia Sorted Permutation.
Import ListNotations.
Open Scope Z_scope.

Module AVL.

(** ** Error monad for null-pointer dereferences *)

Definition bind {A B : Type} (m : option A) (f : A -> option B) : option B :=
  match m with
  | Some a => f a
  | None => None
  end.

Notation "x <- m ;; k" := (bind m (fun x => k))
  (at level 61, m at next level, right associativity).
Notation "' p <- m ;; k" := (bind m (fun p => k))
  (at level 61, p pattern, m at next level, right associativity).

(** ** Data model *)

(** [struct TreeNode { T data; TreeNode* left; TreeNode* right; int height; }]
    together with the null pointer. *)
Inductive TreeNode : Type :=
| nullptr : TreeNode
| Node (data : Z) (l r : TreeNode) (h : Z) : TreeNode.

(** [TreeNode::TreeNode(const T& value)]: no children, height 1. *)
Definition new_TreeNode (value : Z) : TreeNode :=
  Node value nullptr nullptr 1.

(** [int AVL<T>::height(TreeNode* node) const] *)
Definition height (node : TreeNode) : Z :=
  match node with
  | nullptr => -1
  | Node _ _ _ h => h
  end.

(** The assignment
    [node->height = std::max(height(node->left), height(node->right)) + 1]
    on a node with fields [d], [l], [r]. *)
Definition refresh (d : Z) (l r : TreeNode) : TreeNode :=
  Node d l r (Z.max (height l) (height r) + 1).

(** [TreeNode::min()]: follow left pointers from [this]. *)
Fixpoint TreeNode_min (this : TreeNode) : TreeNode :=
  match this with
  | Node _ (Node _ _ _ _ as current) _ _ => TreeNode_min current
  | _ => this
  end.

(** [TreeNode::max()]: follow right pointers from [this]. *)
Fixpoint TreeNode_max (this : TreeNode) : TreeNode :=
  match this with
  | Node _ _ (Node _ _ _ _ as current) _ => TreeNode_max current
  | _ => this
  end.

(** ** Rebalancing *)

(** The block "Rotação dupla à esquerda-direita": relinks [node->left]
    and its right child; no height is touched. *)
Definition double_left_right (node : TreeNode) : option TreeNode :=
  match node with
  | Node d (Node ld ll (Node lrd lrl lrr lrh) lh) r h =>
      Some (Node d (Node lrd (Node ld ll lrl lh) lrr lrh) r h)
  | _ => None
  end.

(** The block "Rotação simples à direita" with its height updates:
    first the demoted [node], then the promoted [leftChild]. *)
Definition single_right (node : TreeNode) : option TreeNode :=
  match node with
  | Node d (Node ld ll lr _) r _ => Some (refresh ld ll (refresh d lr r))
  | _ => None
  end.

(** The block "Rotação dupla à direita-esquerda". *)
Definition double_right_left (node : TreeNode) : option TreeNode :=
  match node with
  | Node d l (Node rd (Node rld rll rlr rlh) rr rh) h =>
      Some (Node d l (Node rld rll (Node rd rlr rr rh) rlh) h)
  | _ => None
  end.

(** The block "Rotação simples à esquerda" with its height updates. *)
Definition single_left (node : TreeNode) : option TreeNode :=
  match node with
  | Node d l (Node rd rl rr _) _ => Some (refresh rd (refresh d l rl) rr)
  | _ => None
  end.

(** [void AVL<T>::balance(TreeNode*& node)] *)
Definition balance (node : TreeNode) : option TreeNode :=
  match node with
  | nullptr => Some nullptr
  | Node d l r _ =>
      let balanceFactor := height l - height r in
      if balanceFactor >? 1 then
        match l with
        | nullptr => None
        | Node _ ll lr _ =>
            node' <- (if height lr >? height ll
                      then double_left_right node else Some node) ;;
            single_right node'
        end
      else if balanceFactor <? -1 then
        match r with
        | nullptr => None
        | Node _ rl rr _ =>
            node' <- (if height rl >? height rr
                      then double_right_left node else Some node) ;;
            single_left node'
        end
      else Some (refresh d l r)
  end.

(** ** Insertion, lookup, removal *)

(** The tail of [insert] on the node with fields [d], [l], [r], [h]:
    [if (inserted) { node->height = ...; balance(node); } return inserted;] *)
Definition insert_finish (d : Z) (l r : TreeNode) (h : Z) (inserted : bool)
  : option (TreeNode * bool) :=
  if inserted then
    node' <- balance (refresh d l r) ;; Some (node', inserted)
  else Some (Node d l r h, inserted).

(** [bool AVL<T>::insert(TreeNode*& node, const T& value)]: the updated
    subtree and the returned flag. *)
Fixpoint insert (node : TreeNode) (value : Z) : option (TreeNode * bool) :=
  match node with
  | nullptr => Some (new_TreeNode value, true)
  | Node d l r h =>
      if value =? d then Some (node, false)
      else if value <? d then
        '(l', inserted) <- insert l value ;;
        insert_finish d l' r h inserted
      else
        '(r', inserted) <- insert r value ;;
        insert_finish d l r' h inserted
  end.

(** [bool AVL<T>::contain(const TreeNode* const node, const T& value) const] *)
Fixpoint contain (node : TreeNode) (value : Z) : bool :=
  match node with
  | nullptr => false
  | Node d l r _ =>
      if value =? d then true
      else if value <? d then contain l value
      else contain r value
  end.

(** The tail of [remove]:
    [if (removed && node) { node->height = ...; balance(node); } return removed;] *)
Definition remove_finish (node : TreeNode) (removed : bool)
  : option (TreeNode * bool) :=
  match removed, node with
  | true, Node d l r _ =>
      node' <- balance (refresh d l r) ;; Some (node', removed)
  | _, _ => Some (node, removed)
  end.

(** [bool AVL<T>::remove(TreeNode*& node, const T& value)].  In the
    two-children case the result of the inner call is discarded, as in
    the source. *)
Fixpoint remove (node : TreeNode) (value : Z) : option (TreeNode * bool) :=
  match node with
  | nullptr => Some (nullptr, false)
  | Node d l r h =>
      if value <? d then
        '(l', removed) <- remove l value ;;
        remove_finish (Node d l' r h) removed
      else if value >? d then
        '(r', removed) <- remove r value ;;
        remove_finish (Node d l r' h) removed
      else
        match l with
        | nullptr => remove_finish r true
        | Node _ _ _ _ =>
            match r with
            | nullptr => remove_finish l true
            | Node _ _ _ _ =>
                match TreeNode_min r with
                | nullptr => None
                | Node sd _ _ _ =>
                    '(r', _) <- remove r sd ;;
                    remove_finish (Node sd l r' h) true
                end
            end
        end
  end.

(** ** Traversals: the recursive helpers push onto [result] *)

Fixpoint in_order_aux (node : TreeNode) (result : list Z) : list Z :=
  match node with
  | nullptr => result
  | Node d l r _ => in_order_aux r (in_order_aux l result ++ [d])
  end.

Definition in_order (root : TreeNode) : list Z := in_order_aux root [].

Fixpoint pre_order_aux (node : TreeNode) (result : list Z) : list Z :=
  match node with
  | nullptr => result
  | Node d l r _ => pre_order_aux r (pre_order_aux l (result ++ [d]))
  end.

Definition pre_order (root : TreeNode) : list Z := pre_order_aux root [].

Fixpoint post_order_aux (node : TreeNode) (result : list Z) : list Z :=
  match node with
  | nullptr => result
  | Node d l r _ => post_order_aux r (post_order_aux l result) ++ [d]
  end.

Definition post_order (root : TreeNode) : list Z := post_order_aux root [].

(** ** Balance check *)

(** [std::pair<bool, int> is_balanced(TreeNode* node) const] *)
Fixpoint is_balanced_aux (node : TreeNode) : bool * Z :=
  match node with
  | nullptr => (true, -1)
  | Node _ l r _ =>
      let left := is_balanced_aux l in
      let right := is_balanced_aux r in
      (fst left && fst right && (Z.abs (snd left - snd right) <=? 1),
       1 + Z.max (snd left) (snd right))
  end.

(** [bool is_balanced() const] *)
Definition is_balanced (root : TreeNode) : bool := fst (is_balanced_aux root).

(** ** The public interface as a transition system on the root pointer *)

Inductive op : Type :=
| Insert (value : Z)
| Remove (value : Z).

Definition step (root : TreeNode) (o : op) : option (TreeNode * bool) :=
  match o with
  | Insert value => insert root value
  | Remove value => remove root value
  end.

(** Runs the calls in order and collects the flags they return. *)
Fixpoint run (root : TreeNode) (ops : list op) : option (TreeNode * list bool) :=
  match ops with
  | [] => Some (root, [])
  | o :: ops' =>
      '(root', b) <- step root o ;;
      '(root'', bs) <- run root' ops' ;;
      Some (root'', b :: bs)
  end.

(** A state is reachable when some sequence of calls on the tree built
    by [AVL<T>::AVL()] produces it. *)
Definition reachable (root : TreeNode) : Prop :=
  exists ops bs, run nullptr ops = Some (root, bs).

(** ** Invariants used by the proofs *)

(** Binary-search-tree order, node by node: everything stored on the left
    is smaller than the node's value, everything on the right larger. *)
Fixpoint bst (node : TreeNode) : Prop :=
  match node with
  | nullptr => True
  | Node d l r _ =>
      Forall (fun y => y < d) (in_order l) /\
      Forall (fun y => d < y) (in_order r) /\
      bst l /\ bst r
  end.

(** Every stored height is non-negative.  This is what keeps [balance]
    from dereferencing a null child. *)
Fixpoint heights_nonneg (node : TreeNode) : Prop :=
  match node with
  | nullptr => True
  | Node _ l r h => 0 <= h /\ heights_nonneg l /\ heights_nonneg r
  end.

Definition Inv (root : TreeNode) : Prop := bst root /\ heights_nonneg root.

(** ** Observations used to state the properties *)

(** Every stored height is one more than the larger of the children's
    stored heights, as [height()] reports them. *)
Fixpoint height_consistent (node : TreeNode) : bool :=
  match node with
  | nullptr => true
  | Node _ l r h =>
      (h =? 1 + Z.max (height l) (height r))
      && height_consistent l && height_consistent r
  end.

(** Every stored height is the structural height of its subtree, as
    [is_balanced] recomputes it (a missing subtree counts -1). *)
Fixpoint height_exact (node : TreeNode) : bool :=
  match node with
  | nullptr => true
  | Node _ l r h =>
      (h =? snd (is_balanced_aux node)) && height_exact l && height_exact r
  end.

(** Calls of [insert], respectively [remove], that returned [true]. *)
Fixpoint inserted_ok (ops : list op) (bs : list bool) : nat :=
  match ops, bs with
  | Insert _ :: ops', true :: bs' => S (inserted_ok ops' bs')
  | _ :: ops', _ :: bs' => inserted_ok ops' bs'
  | _, _ => O
  end.

Fixpoint removed_ok (ops : list op) (bs : list bool) : nat :=
  match ops, bs with
  | Remove _ :: ops', true :: bs' => S (removed_ok ops' bs')
  | _ :: ops', _ :: bs' => removed_ok ops' bs'
  | _, _ => O
  end.

(** Whether [x] is among the values currently present after the calls
    [ops], when [before] says whether it was present at the start. *)
Definition member_after (ops : list op) (x : Z) (before : bool) : bool :=
  fold_left
    (fun present o =>
       match o with
       | Insert v => (x =? v) || present
       | Remove v => negb (x =? v) && present
       end)
    ops before.

(** The branch that [balance] takes. *)
Inductive rotation : Type :=
| NoRotation
| SingleRight
| DoubleLeftRight
| SingleLeft
| DoubleRightLeft.

(** The tests of [balance], without the pointer surgery.  Where [balance]
    would dereference a null child the simple rotation is reported, whose
    block dereferences it as well. *)
Definition balance_case (node : TreeNode) : rotation :=
  match node with
  | nullptr => NoRotation
  | Node _ l r _ =>
      let balanceFactor := height l - height r in
      if balanceFactor >? 1 then
        match l with
        | nullptr => SingleRight
        | Node _ ll lr _ =>
            if height lr >? height ll then DoubleLeftRight else SingleRight
        end
      else if balanceFactor <? -1 then
        match r with
        | nullptr => SingleLeft
        | Node _ rl rr _ =>
            if height rl >? height rr then DoubleRightLeft else SingleLeft
        end
      else NoRotation
  end.

(** The calls [balance(node)] made while one [insert] unwinds, innermost
    first: the depth of [node] below the root, its value, and the branch
    taken. *)
Fixpoint insert_trace (depth : nat) (node : TreeNode) (value : Z)
  : list (nat * Z * rotation) :=
  match node with
  | nullptr => []
  | Node d l r _ =>
      if value =? d then []
      else if value <? d then
        insert_trace (S depth) l value ++
        match insert l value with
        | Some (l', true) => [(depth, d, balance_case (refresh d l' r))]
        | _ => []
        end
      else
        insert_trace (S depth) r value ++
        match insert r value with
        | Some (r', true) => [(depth, d, balance_case (refresh d l r'))]
        | _ => []
        end
  end.

(** The same over successive [insert] calls on the root. *)
Fixpoint inserts_trace (root : TreeNode) (values : list Z)
  : list (nat * Z * rotation) :=
  match values with
  | [] => []
  | v :: values' =>
      insert_trace O root v ++
      match insert root v with
      | Some (root', _) => inserts_trace root' values'
      | None => []
      end
  end.

(** The value held by the root node, if there is one. *)
Definition root_data (root : TreeNode) : option Z :=
  match root with
  | nullptr => None
  | Node d _ _ _ => Some d
  end.

(** A node without children and with the given stored height. *)
Definition leaf (d h : Z) : TreeNode := Node d nullptr nullptr h.

(** ** Trees of the scenarios *)

(** After [insert(10)], [insert(20)], [insert(30)]. *)
Definition tree_10_20_30 : TreeNode :=
  Node 20 (leaf 10 0) (leaf 30 1) 2.

(** After inserting 50, 30, 70, 20, 40, 60, 80. *)
Definition tree_seven : TreeNode :=
  Node 50 (Node 30 (leaf 20 0) (leaf 40 1) 2)
          (Node 70 (leaf 60 0) (leaf 80 1) 2) 3.

(** [tree_seven] after [remove(30)]. *)
Definition tree_seven_without_30 : TreeNode :=
  Node 50 (Node 40 (leaf 20 0) nullptr 1)
          (Node 70 (leaf 60 0) (leaf 80 1) 2) 3.

(** After inserting 1, 2, 3, 5, 6, 4. *)
Definition tree_1_2_3_5_6_4 : TreeNode :=
  Node 5 (Node 2 (leaf 1 0) (Node 4 (leaf 3 0) nullptr 1) 2)
         (leaf 6 1) 3.

(** ** Further observations *)

(** The height that [is_balanced] recomputes for a subtree; it does not
    read the [height] fields. *)
Definition structural_height (node : TreeNode) : Z :=
  snd (is_balanced_aux node).

(** Every stored height is at least the structural height of its
    subtree. *)
Fixpoint heights_dominate (node : TreeNode) : Prop :=
  match node with
  | nullptr => True
  | Node _ l r h =>
      structural_height node <= h /\ heights_dominate l /\ heights_dominate r
  end.

(** Two trees with the same pointer structure, whatever they store. *)
Fixpoint same_shape (a b : TreeNode) : Prop :=
  match a, b with
  | nullptr, nullptr => True
  | Node _ al ar _, Node _ bl br _ => same_shape al bl /\ same_shape ar br
  | _, _ => False
  end.

(** The depth of a tree: -1 for a missing subtree, else one more than
    the deeper child. *)
Fixpoint depth (node : TreeNode) : Z :=
  match node with
  | nullptr => -1
  | Node _ l r _ => 1 + Z.max (depth l) (depth r)
  end.

(** At every node the depths of the two subtrees differ by at most 1. *)
Fixpoint balanced_everywhere (node : TreeNode) : Prop :=
  match node with
  | nullptr => True
  | Node _ l r _ =>
      Z.abs (depth l - depth r) <= 1 /\
      balanced_everywhere l /\ balanced_everywhere r
  end.

(** ** Proof automation *)

Ltac inv H := inversion H; subst; clear H.

(** Case analysis on whatever a [match] or [if] in some hypothesis inspects. *)
Ltac split_match :=
  match goal with
  | H : context [match ?x with _ => _ end] |- _ => destruct x eqn:?
  end.

Ltac some_inv :=
  repeat match goal with
  | H : Some _ = Some _ |- _ => inv H
  | H : None = Some _ |- _ => discriminate H
  | H : (_, _) = (_, _) |- _ => inv H
  end.

Ltac zbool :=
  repeat match goal with
  | H : (_ =? _) = true |- _ => apply Z.eqb_eq in H
  | H : (_ =? _) = false |- _ => apply Z.eqb_neq in H
  | H : (_ <? _) = true |- _ => apply Z.ltb_lt in H
  | H : (_ <? _) = false |- _ => apply Z.ltb_ge in H
  | H : (_ >? _) = true |- _ => rewrite Z.gtb_ltb in H; apply Z.ltb_lt in H
  | H : (_ >? _) = false |- _ => rewrite Z.gtb_ltb in H; apply Z.ltb_ge in H
  | H : (_ <=? _) = true |- _ => apply Z.leb_le in H
  | H : (_ <=? _) = false |- _ => apply Z.leb_gt in H
  end.

Ltac split_ands :=
  repeat match goal with
  | H : _ /\ _ |- _ => destruct H
  end.

(** Unfolds the rotation blocks without touching the arithmetic. *)
Ltac unfold_balance :=
  cbn [bind double_left_right single_right double_right_left single_left
       refresh height heights_nonneg] in *.

(** ** Traversal equations *)

Lemma in_order_aux_app (node : TreeNode) (result : list Z) :
  in_order_aux node result = result ++ in_order node.
Proof.
  unfold in_order. revert result.
  induction node as [|d l IHl r IHr h]; intros result; simpl.
  - now rewrite app_nil_r.
  - rewrite IHr, IHl, (IHr (_ ++ _)), (IHl []). simpl.
    now rewrite <- !app_assoc.
Qed.

Lemma in_order_Node (d : Z) (l r : TreeNode) (h : Z) :
  in_order (Node d l r h) = in_order l ++ d :: in_order r.
Proof.
  unfold in_order at 1. simpl.
  rewrite !in_order_aux_app. simpl. now rewrite <- app_assoc.
Qed.

Lemma in_order_nullptr : in_order nullptr = [].
Proof. reflexivity. Qed.

(** ** Sorted lists split at an element *)

Lemma sorted_app_iff (l1 l2 : list Z) (d : Z) :
  StronglySorted Z.lt (l1 ++ d :: l2) <->
  StronglySorted Z.lt l1 /\ StronglySorted Z.lt l2 /\
  Forall (fun y => y < d) l1 /\ Forall (fun y => d < y) l2.
Proof.
  induction l1 as [|a l1 IH]; simpl.
  - split.
    + intros H. inv H. repeat split; auto using SSorted_nil.
    + intros (_ & H2 & _ & H4). now constructor.
  - split.
    + intros H. inv H. apply IH in H2 as (S1 & S2 & F1 & F2).
      apply Forall_app in H3 as [Fa Fd]. inv Fd.
      repeat split; auto; constructor; auto.
    + intros (S1 & S2 & F1 & F2). inv S1. inv F1.
      constructor.
      * apply IH. repeat split; auto.
      * apply Forall_app. split; [assumption|].
        constructor; [assumption|].
        eapply Forall_impl; [|exact F2]. simpl. intros; lia.
Qed.

Lemma bst_sorted_iff (node : TreeNode) :
  bst node <-> StronglySorted Z.lt (in_order node).
Proof.
  induction node as [|d l IHl r IHr h].
  - simpl. split; auto using SSorted_nil.
  - rewrite in_order_Node, sorted_app_iff. simpl. tauto.
Qed.

(** ** Rebalancing keeps the in-order sequence and the invariants *)

Lemma balance_in_order (node node' : TreeNode) :
  balance node = Some node' -> in_order node' = in_order node.
Proof.
  unfold balance, bind, double_left_right, double_right_left,
    single_right, single_left, refresh.
  intros H.
  repeat (split_match; some_inv; try discriminate);
    rewrite ?in_order_Node, ?in_order_nullptr;
    rewrite <- ?app_assoc; simpl; rewrite <- ?app_assoc; reflexivity.
Qed.

Lemma balance_bst (node node' : TreeNode) :
  balance node = Some node' -> bst node -> bst node'.
Proof.
  intros H. rewrite !bst_sorted_iff, (balance_in_order _ _ H). auto.
Qed.

Lemma height_lower_bound (node : TreeNode) :
  heights_nonneg node -> -1 <= height node.
Proof. destruct node; simpl; lia. Qed.

(** With non-negative stored heights below it, [balance] dereferences no
    null pointer, and the heights it writes are non-negative again. *)
Lemma balance_total (d : Z) (l r : TreeNode) (h : Z) :
  heights_nonneg l -> heights_nonneg r ->
  exists node', balance (Node d l r h) = Some node' /\ heights_nonneg node'.
Proof.
  intros Hl Hr.
  pose proof (height_lower_bound _ Hl) as Bl.
  pose proof (height_lower_bound _ Hr) as Br.
  unfold balance.
  destruct (height l - height r >? 1) eqn:E1.
  - zbool. destruct l as [|ld ll lr lh]; [cbn [height] in *; lia|].
    destruct Hl as (Hlh & Hll & Hlr).
    pose proof (height_lower_bound _ Hll) as Bll.
    pose proof (height_lower_bound _ Hlr) as Blr.
    destruct (height lr >? height ll) eqn:E2.
    + zbool. destruct lr as [|lrd lrl lrr lrh]; [cbn [height] in *; lia|].
      destruct Hlr as (Hlrh & Hlrl & Hlrr).
      pose proof (height_lower_bound _ Hlrl).
      pose proof (height_lower_bound _ Hlrr).
      unfold_balance. eexists; split; [reflexivity|].
      unfold_balance. repeat split; auto; lia.
    + unfold_balance. eexists; split; [reflexivity|].
      unfold_balance. repeat split; auto; lia.
  - destruct (height l - height r <? -1) eqn:E3.
    + zbool. destruct r as [|rd rl rr rh]; [cbn [height] in *; lia|].
      destruct Hr as (Hrh & Hrl & Hrr).
      pose proof (height_lower_bound _ Hrl) as Brl.
      pose proof (height_lower_bound _ Hrr) as Brr.
      destruct (height rl >? height rr) eqn:E4.
      * zbool. destruct rl as [|rld rll rlr rlh]; [cbn [height] in *; lia|].
        destruct Hrl as (Hrlh & Hrll & Hrlr).
        pose proof (height_lower_bound _ Hrll).
        pose proof (height_lower_bound _ Hrlr).
        unfold_balance. eexists; split; [reflexivity|].
        unfold_balance. repeat split; auto; lia.
      * unfold_balance. eexists; split; [reflexivity|].
        unfold_balance. repeat split; auto; lia.
    + eexists; split; [reflexivity|].
      unfold_balance. repeat split; auto; lia.
Qed.

(** ** Insertion *)

(** What a call of [insert] on an existing node amounts to. *)
Lemma insert_Node_inv (d : Z) (l r : TreeNode) (h x : Z)
      (node' : TreeNode) (b : bool) :
  insert (Node d l r h) x = Some (node', b) ->
  (x = d /\ node' = Node d l r h /\ b = false) \/
  (x < d /\ exists l', insert l x = Some (l', b) /\
      if b then balance (refresh d l' r) = Some node'
      else node' = Node d l' r h) \/
  (d < x /\ exists r', insert r x = Some (r', b) /\
      if b then balance (refresh d l r') = Some node'
      else node' = Node d l r' h).
Proof.
  cbn [insert]. unfold insert_finish. intros H.
  destruct (x =? d) eqn:E; zbool.
  - some_inv. auto.
  - destruct (x <? d) eqn:E'; zbool.
    + right; left. split; [assumption|].
      destruct (insert l x) as [[l' b']|]; [|discriminate].
      cbn [bind] in H. exists l'.
      destruct b'.
      * destruct (balance (refresh d l' r)) eqn:B; cbn [bind] in H; some_inv.
        auto.
      * some_inv. auto.
    + right; right. split; [lia|].
      destruct (insert r x) as [[r' b']|]; [|discriminate].
      cbn [bind] in H. exists r'.
      destruct b'.
      * destruct (balance (refresh d l r')) eqn:B; cbn [bind] in H; some_inv.
        auto.
      * some_inv. auto.
Qed.

(** The flag returned by [insert] says the value was absent. *)
Lemma insert_flag (node : TreeNode) (x : Z) (node' : TreeNode) (b : bool) :
  insert node x = Some (node', b) -> b = negb (contain node x).
Proof.
  revert node' b. induction node as [|d l IHl r IHr h]; intros node' b H.
  - cbn in H. some_inv. reflexivity.
  - apply insert_Node_inv in H
      as [(-> & _ & ->) | [(Lt & l' & Hl & _) | (Gt & r' & Hr & _)]];
      cbn [contain].
    + now rewrite Z.eqb_refl.
    + replace (x =? d) with false by (symmetry; apply Z.eqb_neq; lia).
      replace (x <? d) with true by (symmetry; apply Z.ltb_lt; lia).
      eauto.
    + replace (x =? d) with false by (symmetry; apply Z.eqb_neq; lia).
      replace (x <? d) with false by (symmetry; apply Z.ltb_ge; lia).
      eauto.
Qed.

(** A failed [insert] hands back the very same tree. *)
Lemma insert_false (node : TreeNode) (x : Z) (node' : TreeNode) :
  insert node x = Some (node', false) -> node' = node.
Proof.
  revert node'. induction node as [|d l IHl r IHr h]; intros node' H.
  - cbn in H. some_inv.
  - apply insert_Node_inv in H
      as [(_ & -> & _) | [(_ & l' & Hl & ->) | (_ & r' & Hr & ->)]].
    + reflexivity.
    + now rewrite (IHl _ Hl).
    + now rewrite (IHr _ Hr).
Qed.

(** A successful [insert] adds exactly one occurrence of the value. *)
Lemma insert_perm (node : TreeNode) (x : Z) (node' : TreeNode) :
  insert node x = Some (node', true) ->
  Permutation (x :: in_order node) (in_order node').
Proof.
  revert node'. induction node as [|d l IHl r IHr h]; intros node' H.
  - cbn in H. some_inv. apply Permutation_refl.
  - apply insert_Node_inv in H
      as [(_ & _ & F) | [(_ & l' & Hl & B) | (_ & r' & Hr & B)]];
      [discriminate | |];
      apply balance_in_order in B; rewrite B; unfold refresh;
      rewrite !in_order_Node.
    + apply (Permutation_app_tail (d :: in_order r) (IHl _ Hl)).
    + etransitivity; [apply Permutation_middle|].
      apply Permutation_app_head.
      etransitivity; [apply perm_swap | apply perm_skip, (IHr _ Hr)].
Qed.

Lemma insert_bst (node : TreeNode) (x : Z) (node' : TreeNode) (b : bool) :
  bst node -> insert node x = Some (node', b) -> bst node'.
Proof.
  revert node' b.
  induction node as [|d l IHl r IHr h]; intros node' b Hb H.
  - cbn in H. some_inv. cbn. auto.
  - destruct b; [|now rewrite (insert_false _ _ _ H)].
    destruct Hb as (Fl & Fr & Bl & Br).
    apply insert_Node_inv in H
      as [(_ & _ & F) | [(Lt & l' & Hl & B) | (Gt & r' & Hr & B)]];
      [discriminate | |];
      apply (balance_bst _ _ B); cbn [refresh bst]; repeat split;
      eauto.
    + eapply Permutation_Forall; [apply (insert_perm _ _ _ Hl)|].
      now constructor.
    + eapply Permutation_Forall; [apply (insert_perm _ _ _ Hr)|].
      now constructor.
Qed.

(** On a tree with non-negative stored heights [insert] returns, and the
    heights stay non-negative. *)
Lemma insert_total (node : TreeNode) (x : Z) :
  heights_nonneg node ->
  exists node' b, insert node x = Some (node', b) /\ heights_nonneg node'.
Proof.
  induction node as [|d l IHl r IHr h]; intros Hh.
  - exists (new_TreeNode x), true. cbn. repeat split; auto; lia.
  - destruct Hh as (Hh & Hl & Hr). cbn [insert]. unfold insert_finish.
    destruct (x =? d).
    + exists (Node d l r h), false. cbn. auto.
    + destruct (x <? d).
      * destruct (IHl Hl) as (l' & b & -> & Hl'). cbn [bind].
        destruct b.
        -- destruct (balance_total d l' r (Z.max (height l') (height r) + 1)
                       Hl' Hr) as (n & B & Hn).
           unfold refresh. rewrite B. cbn [bind]. eauto.
        -- exists (Node d l' r h), false. cbn. auto.
      * destruct (IHr Hr) as (r' & b & -> & Hr'). cbn [bind].
        destruct b.
        -- destruct (balance_total d l r' (Z.max (height l) (height r') + 1)
                       Hl Hr') as (n & B & Hn).
           unfold refresh. rewrite B. cbn [bind]. eauto.
        -- exists (Node d l r' h), false. cbn. auto.
Qed.

(** ** Lookup *)

(** On a search tree the descent of [contain] finds exactly the values
    that [in_order] lists. *)
Lemma contain_in (node : TreeNode) (x : Z) :
  bst node -> (contain node x = true <-> In x (in_order node)).
Proof.
  induction node as [|d l IHl r IHr h]; intros Hb.
  - cbn. split; [discriminate | tauto].
  - destruct Hb as (Fl & Fr & Bl & Br).
    rewrite in_order_Node, in_app_iff. cbn [contain In].
    rewrite Forall_forall in Fl, Fr.
    destruct (x =? d) eqn:E; zbool.
    + split; auto.
    + destruct (x <? d) eqn:E'; zbool.
      * rewrite (IHl Bl). split; [auto|].
        intros [H | [H | H]]; [assumption | lia | apply Fr in H; lia].
      * rewrite (IHr Br). split; [auto|].
        intros [H | [H | H]]; [apply Fl in H; lia | lia | assumption].
Qed.

(** ** Removal *)

(** The node returned by [min()] holds the first value of the in-order
    sequence. *)
Lemma TreeNode_min_head (d : Z) (l r : TreeNode) (h : Z) :
  exists sd sl sr sh rest,
    TreeNode_min (Node d l r h) = Node sd sl sr sh /\
    in_order (Node d l r h) = sd :: rest.
Proof.
  revert d r h. induction l as [|ld ll IHll lr _ lh]; intros d r h.
  - exists d, nullptr, r, h, (in_order r).
    split; [reflexivity | now rewrite in_order_Node].
  - destruct (IHll ld lr lh) as (sd & sl & sr & sh & rest & M & I).
    exists sd, sl, sr, sh, (rest ++ d :: in_order r).
    split; [exact M|].
    rewrite in_order_Node, I. reflexivity.
Qed.

Lemma remove_finish_spec (node : TreeNode) (b : bool)
      (node' : TreeNode) (b' : bool) :
  remove_finish node b = Some (node', b') ->
  b' = b /\ in_order node' = in_order node /\
  (b = false -> node' = node) /\ (bst node -> bst node').
Proof.
  unfold remove_finish. intros H.
  destruct b; [destruct node as [|d l r h]|]; some_inv; auto.
  destruct (balance (refresh d l r)) as [n|] eqn:B; cbn [bind] in H; some_inv.
  repeat split.
  - rewrite (balance_in_order _ _ B). unfold refresh.
    now rewrite !in_order_Node.
  - discriminate.
  - intros Hb. apply (balance_bst _ _ B). exact Hb.
Qed.

Lemma remove_finish_total (node : TreeNode) (b : bool) :
  heights_nonneg node ->
  exists node', remove_finish node b = Some (node', b) /\ heights_nonneg node'.
Proof.
  intros Hh. unfold remove_finish.
  destruct b; [destruct node as [|d l r h]|]; eauto.
  destruct Hh as (_ & Hl & Hr).
  destruct (balance_total d l r (Z.max (height l) (height r) + 1) Hl Hr)
    as (n & B & Hn).
  unfold refresh. rewrite B. cbn [bind]. eauto.
Qed.

(** What a call of [remove] on an existing node amounts to. *)
Lemma remove_Node_inv (d : Z) (l r : TreeNode) (h x : Z)
      (node' : TreeNode) (b : bool) :
  remove (Node d l r h) x = Some (node', b) ->
  (x < d /\ exists l' b0, remove l x = Some (l', b0) /\
      remove_finish (Node d l' r h) b0 = Some (node', b)) \/
  (d < x /\ exists r' b0, remove r x = Some (r', b0) /\
      remove_finish (Node d l r' h) b0 = Some (node', b)) \/
  (x = d /\ l = nullptr /\ remove_finish r true = Some (node', b)) \/
  (x = d /\ l <> nullptr /\ r = nullptr /\
      remove_finish l true = Some (node', b)) \/
  (x = d /\ l <> nullptr /\ r <> nullptr /\
      exists sd sl sr sh r' b0,
        TreeNode_min r = Node sd sl sr sh /\
        remove r sd = Some (r', b0) /\
        remove_finish (Node sd l r' h) true = Some (node', b)).
Proof.
  cbn [remove]. intros H.
  destruct (x <? d) eqn:E; zbool.
  - left. split; [assumption|].
    destruct (remove l x) as [[l' b0]|]; [|discriminate].
    cbn [bind] in H. exists l', b0. auto.
  - destruct (x >? d) eqn:E'; zbool.
    + right; left. split; [assumption|].
      destruct (remove r x) as [[r' b0]|]; [|discriminate].
      cbn [bind] in H. exists r', b0. auto.
    + assert (x = d) by lia. subst x.
      right; right.
      destruct l as [|ld ll lr lh]; [left; auto|].
      right.
      destruct r as [|rd rl rr rh];
        [left; repeat split; auto; discriminate|].
      right. split; [reflexivity|]. split; [discriminate|].
      split; [discriminate|].
      destruct (TreeNode_min (Node rd rl rr rh)) as [|sd sl sr sh] eqn:M;
        [discriminate|].
      destruct (remove (Node rd rl rr rh) sd) as [[r' b0]|] eqn:R;
        [|discriminate].
      cbn [bind] in H.
      exists sd, sl, sr, sh, r', b0. auto.
Qed.

(** The descent of [remove] is the descent of [contain]: the flag says
    the value was found. *)
Lemma remove_flag (node : TreeNode) (x : Z) (node' : TreeNode) (b : bool) :
  remove node x = Some (node', b) -> b = contain node x.
Proof.
  revert node' b. induction node as [|d l IHl r IHr h]; intros node' b H.
  - cbn in H. some_inv. reflexivity.
  - cbn [contain].
    apply remove_Node_inv in H
      as [(Lt & l' & b0 & Hl & F) | [(Gt & r' & b0 & Hr & F) |
          [(-> & _ & F) | [(-> & _ & _ & F) | (-> & _ & _ & R)]]]].
    + apply remove_finish_spec in F as (-> & _).
      replace (x =? d) with false by (symmetry; apply Z.eqb_neq; lia).
      replace (x <? d) with true by (symmetry; apply Z.ltb_lt; lia).
      eauto.
    + apply remove_finish_spec in F as (-> & _).
      replace (x =? d) with false by (symmetry; apply Z.eqb_neq; lia).
      replace (x <? d) with false by (symmetry; apply Z.ltb_ge; lia).
      eauto.
    + apply remove_finish_spec in F as (-> & _). now rewrite Z.eqb_refl.
    + apply remove_finish_spec in F as (-> & _). now rewrite Z.eqb_refl.
    + destruct R as (sd & sl & sr & sh & r' & b0 & _ & _ & F).
      apply remove_finish_spec in F as (-> & _). now rewrite Z.eqb_refl.
Qed.

(** A failed [remove] hands back the very same tree. *)
Lemma remove_false (node : TreeNode) (x : Z) (node' : TreeNode) :
  remove node x = Some (node', false) -> node' = node.
Proof.
  revert node'. induction node as [|d l IHl r IHr h]; intros node' H.
  - cbn in H. some_inv. reflexivity.
  - apply remove_Node_inv in H
      as [(Lt & l' & b0 & Hl & F) | [(Gt & r' & b0 & Hr & F) |
          [(-> & _ & F) | [(-> & _ & _ & F) | (-> & _ & _ & R)]]]].
    + apply remove_finish_spec in F as (<- & _ & E & _).
      rewrite (E eq_refl). now rewrite (IHl _ Hl).
    + apply remove_finish_spec in F as (<- & _ & E & _).
      rewrite (E eq_refl). now rewrite (IHr _ Hr).
    + apply remove_finish_spec in F as (F & _). discriminate.
    + apply remove_finish_spec in F as (F & _). discriminate.
    + destruct R as (sd & sl & sr & sh & r' & b0 & _ & _ & F).
      apply remove_finish_spec in F as (F & _). discriminate.
Qed.

(** In a search tree the successor value found by [min()] is removed by
    the inner call, whose result the source does not look at. *)
Lemma remove_min_found (r : TreeNode) (sd : Z) (sl sr : TreeNode) (sh : Z)
      (r' : TreeNode) (b0 : bool) :
  bst r -> r <> nullptr ->
  TreeNode_min r = Node sd sl sr sh ->
  remove r sd = Some (r', b0) ->
  b0 = true /\ exists rest, in_order r = sd :: rest.
Proof.
  intros Hb Hn M R.
  destruct r as [|rd rl rr rh]; [contradiction|].
  destruct (TreeNode_min_head rd rl rr rh)
    as (sd' & sl' & sr' & sh' & rest & M' & I).
  rewrite M in M'. inv M'.
  split; [|eauto].
  rewrite (remove_flag _ _ _ _ R).
  apply contain_in; [assumption|]. rewrite I. now left.
Qed.

(** A successful [remove] on a search tree takes out exactly one
    occurrence of the value. *)
Lemma remove_perm (node : TreeNode) (x : Z) (node' : TreeNode) :
  bst node -> remove node x = Some (node', true) ->
  Permutation (in_order node) (x :: in_order node').
Proof.
  revert x node'.
  induction node as [|d l IHl r IHr h]; intros x node' Hb H.
  - cbn in H. some_inv.
  - destruct Hb as (Fl & Fr & Bl & Br). rewrite in_order_Node.
    apply remove_Node_inv in H
      as [(Lt & l' & b0 & Hl & F) | [(Gt & r' & b0 & Hr & F) |
          [(-> & -> & F) | [(-> & _ & -> & F) | (-> & Nl & Nr & R)]]]].
    + apply remove_finish_spec in F as (<- & -> & _).
      rewrite in_order_Node.
      apply (Permutation_app_tail (d :: in_order r) (IHl _ _ Bl Hl)).
    + apply remove_finish_spec in F as (<- & -> & _).
      rewrite in_order_Node.
      etransitivity; [|symmetry; apply Permutation_middle].
      apply Permutation_app_head.
      etransitivity; [apply perm_skip, (IHr _ _ Br Hr) | apply perm_swap].
    + apply remove_finish_spec in F as (_ & -> & _). reflexivity.
    + apply remove_finish_spec in F as (_ & -> & _).
      rewrite in_order_nullptr. symmetry. apply Permutation_cons_append.
    + destruct R as (sd & sl & sr & sh & r' & b0 & M & R & F).
      destruct (remove_min_found _ _ _ _ _ _ _ Br Nr M R) as (-> & _).
      apply remove_finish_spec in F as (_ & -> & _).
      rewrite in_order_Node.
      etransitivity; [symmetry; apply Permutation_middle|].
      apply perm_skip, Permutation_app_head, (IHr _ _ Br R).
Qed.

Lemma remove_bst (node : TreeNode) (x : Z) (node' : TreeNode) (b : bool) :
  bst node -> remove node x = Some (node', b) -> bst node'.
Proof.
  revert x node' b.
  induction node as [|d l IHl r IHr h]; intros x node' b Hb H.
  - cbn in H. some_inv. exact I.
  - destruct b; [|now rewrite (remove_false _ _ _ H)].
    pose proof Hb as (Fl & Fr & Bl & Br).
    apply remove_Node_inv in H
      as [(Lt & l' & b0 & Hl & F) | [(Gt & r' & b0 & Hr & F) |
          [(-> & -> & F) | [(-> & _ & -> & F) | (-> & Nl & Nr & R)]]]].
    + apply remove_finish_spec in F as (<- & _ & _ & K). apply K.
      cbn [bst]. repeat split; eauto.
      pose proof (Permutation_Forall (remove_perm _ _ _ Bl Hl) Fl) as P.
      now inv P.
    + apply remove_finish_spec in F as (<- & _ & _ & K). apply K.
      cbn [bst]. repeat split; eauto.
      pose proof (Permutation_Forall (remove_perm _ _ _ Br Hr) Fr) as P.
      now inv P.
    + apply remove_finish_spec in F as (_ & _ & _ & K). auto.
    + apply remove_finish_spec in F as (_ & _ & _ & K). auto.
    + destruct R as (sd & sl & sr & sh & r' & b0 & M & R & F).
      destruct (remove_min_found _ _ _ _ _ _ _ Br Nr M R)
        as (-> & rest & I).
      apply remove_finish_spec in F as (_ & _ & _ & K). apply K.
      pose proof (remove_perm _ _ _ Br R) as P.
      assert (Ss : StronglySorted Z.lt (sd :: rest))
        by (rewrite <- I; now apply bst_sorted_iff).
      inv Ss.
      rewrite I in P, Fr. apply Permutation_cons_inv in P. inv Fr.
      cbn [bst]. repeat split; eauto.
      * eapply Forall_impl; [|exact Fl]. cbn. intros; lia.
      * apply (Permutation_Forall P). assumption.
Qed.

(** On a tree with non-negative stored heights [remove] returns, and the
    heights stay non-negative. *)
Lemma remove_total (node : TreeNode) (x : Z) :
  heights_nonneg node ->
  exists node' b, remove node x = Some (node', b) /\ heights_nonneg node'.
Proof.
  revert x. induction node as [|d l IHl r IHr h]; intros x Hh.
  - exists nullptr, false. cbn. auto.
  - pose proof Hh as (Hh0 & Hl & Hr). cbn [remove].
    destruct (x <? d).
    + destruct (IHl x Hl) as (l' & b & -> & Hl'). cbn [bind].
      destruct (remove_finish_total (Node d l' r h) b) as (n & -> & Hn);
        [cbn; auto | eauto].
    + destruct (x >? d).
      * destruct (IHr x Hr) as (r' & b & -> & Hr'). cbn [bind].
        destruct (remove_finish_total (Node d l r' h) b) as (n & -> & Hn);
          [cbn; auto | eauto].
      * destruct l as [|ld ll lr lh].
        -- destruct (remove_finish_total r true Hr) as (n & -> & Hn). eauto.
        -- destruct r as [|rd rl rr rh].
           ++ destruct (remove_finish_total _ true Hl) as (n & -> & Hn). eauto.
           ++ destruct (TreeNode_min_head rd rl rr rh)
                as (sd & sl & sr & sh & rest & -> & _).
              destruct (IHr sd Hr) as (r' & b & -> & Hr'). cbn [bind].
              destruct (remove_finish_total (Node sd (Node ld ll lr lh) r' h)
                          true) as (n & -> & Hn);
                [cbn [heights_nonneg] in *; tauto | eauto].
Qed.

(** ** Membership after a call *)

Lemma sorted_NoDup (l : list Z) : StronglySorted Z.lt l -> NoDup l.
Proof.
  induction 1 as [|a l S IH F]; constructor; [|assumption].
  intros Hin. rewrite Forall_forall in F. apply F in Hin. lia.
Qed.

Lemma insert_contain (node : TreeNode) (v : Z) (node' : TreeNode) (b : bool)
      (x : Z) :
  bst node -> insert node v = Some (node', b) ->
  contain node' x = (x =? v) || contain node x.
Proof.
  intros Hb H.
  pose proof (insert_bst _ _ _ _ Hb H) as Hb'.
  pose proof (insert_flag _ _ _ _ H) as Fl.
  destruct b.
  - apply eq_true_iff_eq.
    rewrite orb_true_iff, Z.eqb_eq, !contain_in by assumption.
    pose proof (insert_perm _ _ _ H) as P. split.
    + intros Hin. apply (Permutation_in _ (Permutation_sym P)) in Hin.
      destruct Hin; auto.
    + intros Hin. apply (Permutation_in _ P).
      destruct Hin; [left | right]; auto.
  - rewrite (insert_false _ _ _ H).
    destruct (x =? v) eqn:E; zbool; [|reflexivity].
    subst x. destruct (contain node v); [reflexivity | discriminate].
Qed.

Lemma remove_contain (node : TreeNode) (v : Z) (node' : TreeNode) (b : bool)
      (x : Z) :
  bst node -> remove node v = Some (node', b) ->
  contain node' x = negb (x =? v) && contain node x.
Proof.
  intros Hb H.
  pose proof (remove_bst _ _ _ _ Hb H) as Hb'.
  pose proof (remove_flag _ _ _ _ H) as Fl.
  destruct b.
  - apply eq_true_iff_eq.
    rewrite andb_true_iff, negb_true_iff, Z.eqb_neq, !contain_in by assumption.
    pose proof (remove_perm _ _ _ Hb H) as P.
    assert (N : NoDup (v :: in_order node')).
    { apply (Permutation_NoDup P), sorted_NoDup.
      now apply bst_sorted_iff. }
    inv N. split.
    + intros Hin. split; [intros ->; contradiction|].
      apply (Permutation_in _ (Permutation_sym P)). now right.
    + intros (Ne & Hin). apply (Permutation_in _ P) in Hin.
      destruct Hin; [congruence | assumption].
  - rewrite (remove_false _ _ _ H).
    destruct (x =? v) eqn:E; zbool; [|reflexivity].
    subst x. now rewrite <- Fl.
Qed.

(** ** Invariants of the transition system *)

Lemma Inv_nullptr : Inv nullptr.
Proof. split; exact I. Qed.

(** Every public call returns, and keeps the invariants. *)
Lemma step_total (root : TreeNode) (o : op) :
  Inv root -> exists root' b, step root o = Some (root', b) /\ Inv root'.
Proof.
  intros (Hb & Hh). destruct o as [v|v]; cbn [step].
  - destruct (insert_total root v Hh) as (root' & b & E & Hh').
    exists root', b. repeat split; eauto using insert_bst.
  - destruct (remove_total root v Hh) as (root' & b & E & Hh').
    exists root', b. repeat split; eauto using remove_bst.
Qed.

Lemma step_Inv (root : TreeNode) (o : op) (root' : TreeNode) (b : bool) :
  Inv root -> step root o = Some (root', b) -> Inv root'.
Proof.
  intros HI E.
  destruct (step_total root o HI) as (r2 & b2 & E2 & HI2).
  rewrite E in E2. now some_inv.
Qed.

Lemma run_cons_inv (root : TreeNode) (o : op) (ops : list op)
      (root' : TreeNode) (bs : list bool) :
  run root (o :: ops) = Some (root', bs) ->
  exists mid b bs', step root o = Some (mid, b) /\
    run mid ops = Some (root', bs') /\ bs = b :: bs'.
Proof.
  cbn [run]. intros H.
  destruct (step root o) as [[mid b]|] eqn:E1; [|discriminate].
  cbn [bind] in H.
  destruct (run mid ops) as [[r bs']|] eqn:E2; [|discriminate].
  cbn [bind] in H. some_inv.
  exists mid, b, bs'. auto.
Qed.

Lemma run_total (root : TreeNode) (ops : list op) :
  Inv root -> exists root' bs, run root ops = Some (root', bs) /\ Inv root'.
Proof.
  revert root. induction ops as [|o ops IH]; intros root HI.
  - exists root, []. auto.
  - destruct (step_total root o HI) as (mid & b & E & HI').
    destruct (IH mid HI') as (root' & bs & E' & HI'').
    exists root', (b :: bs). cbn [run]. rewrite E. cbn [bind].
    rewrite E'. auto.
Qed.

Lemma run_Inv (root : TreeNode) (ops : list op)
      (root' : TreeNode) (bs : list bool) :
  Inv root -> run root ops = Some (root', bs) -> Inv root'.
Proof.
  intros HI E.
  destruct (run_total root ops HI) as (r2 & b2 & E2 & HI2).
  rewrite E in E2. now some_inv.
Qed.

Lemma reachable_Inv (root : TreeNode) : reachable root -> Inv root.
Proof.
  intros (ops & bs & E). exact (run_Inv _ _ _ _ Inv_nullptr E).
Qed.

Lemma reachable_nullptr : reachable nullptr.
Proof. exists [], []. reflexivity. Qed.

(** ** The branch reported by [balance_case] is the one [balance] runs *)

Lemma balance_case_sound (node : TreeNode) :
  balance node =
  match balance_case node with
  | NoRotation =>
      match node with
      | nullptr => Some nullptr
      | Node d l r _ => Some (refresh d l r)
      end
  | SingleRight => single_right node
  | DoubleLeftRight => node' <- double_left_right node ;; single_right node'
  | SingleLeft => single_left node
  | DoubleRightLeft => node' <- double_right_left node ;; single_left node'
  end.
Proof.
  destruct node as [|d l r h]; [reflexivity|].
  unfold balance, balance_case.
  destruct (height l - height r >? 1).
  - destruct l as [|ld ll lr lh]; [reflexivity|].
    destruct (height lr >? height ll); reflexivity.
  - destruct (height l - height r <? -1); [|reflexivity].
    destruct r as [|rd rl rr rh]; [reflexivity|].
    destruct (height rl >? height rr); reflexivity.
Qed.

(** ** Counting and membership along a sequence of calls *)

Lemma step_count (root : TreeNode) (o : op) (root' : TreeNode) (b : bool) :
  Inv root -> step root o = Some (root', b) ->
  (length (in_order root') + removed_ok [o] [b] =
   length (in_order root) + inserted_ok [o] [b])%nat.
Proof.
  intros (Hb & _) E. destruct o as [v|v], b; cbn [step] in E; cbn.
  - rewrite <- (Permutation_length (insert_perm _ _ _ E)). cbn. lia.
  - now rewrite (insert_false _ _ _ E).
  - rewrite (Permutation_length (remove_perm _ _ _ Hb E)). cbn. lia.
  - now rewrite (remove_false _ _ _ E).
Qed.

Lemma run_count (root : TreeNode) (ops : list op)
      (root' : TreeNode) (bs : list bool) :
  Inv root -> run root ops = Some (root', bs) ->
  (length (in_order root') + removed_ok ops bs =
   length (in_order root) + inserted_ok ops bs)%nat.
Proof.
  revert root bs. induction ops as [|o ops IH]; intros root bs HI E.
  - cbn in E. some_inv. reflexivity.
  - apply run_cons_inv in E as (mid & b & bs' & E1 & E2 & ->).
    pose proof (step_count _ _ _ _ HI E1) as C1.
    pose proof (IH _ _ (step_Inv _ _ _ _ HI E1) E2) as C2.
    destruct o as [v|v], b; cbn in C1 |- *; lia.
Qed.

Lemma run_contain (root : TreeNode) (ops : list op)
      (root' : TreeNode) (bs : list bool) (x : Z) :
  Inv root -> run root ops = Some (root', bs) ->
  contain root' x = member_after ops x (contain root x).
Proof.
  revert root bs. induction ops as [|o ops IH]; intros root bs HI E.
  - cbn in E. some_inv. reflexivity.
  - apply run_cons_inv in E as (mid & b & bs' & E1 & E2 & ->).
    rewrite (IH _ _ (step_Inv _ _ _ _ HI E1) E2).
    unfold member_after. cbn [fold_left]. f_equal.
    destruct HI as (Hb & _).
    destruct o as [v|v]; cbn [step] in E1.
    + apply (insert_contain _ _ _ _ _ Hb E1).
    + apply (remove_contain _ _ _ _ _ Hb E1).
Qed.

(** * The claims *)

(** C1 (fails on the code).  The claim: in every reachable state every
    node's stored height equals 1 + max(height(left), height(right)),
    a missing subtree counting -1.  Already the first [insert] on the
    empty tree breaks it: the constructor stores height 1 in the new
    leaf, while the formula gives 1 + max(-1, -1) = 0, whether the
    children's heights are read from their fields or recomputed. *)
Theorem C1_first_insert_stores_height_1 :
  insert nullptr 10 = Some (leaf 10 1, true) /\
  reachable (leaf 10 1) /\
  height (leaf 10 1) = 1 /\
  1 + Z.max (height nullptr) (height nullptr) = 0 /\
  height_consistent (leaf 10 1) = false /\
  height_exact (leaf 10 1) = false.
Proof.
  repeat split.
  exists [Insert 10], [true]. reflexivity.
Qed.

(** C2 (fails on the code).  The claim: in every reachable state the
    structural heights of the two subtrees of every node differ by at
    most 1, and [is_balanced()] returns true.  Inserting 1, 2, 3, 5, 6, 4
    reaches a tree whose root has a left subtree of height 2 and a right
    subtree of height 0, and [is_balanced()] returns false. *)
Theorem C2_six_inserts_unbalanced :
  run nullptr [Insert 1; Insert 2; Insert 3; Insert 5; Insert 6; Insert 4]
    = Some (tree_1_2_3_5_6_4, [true; true; true; true; true; true]) /\
  reachable tree_1_2_3_5_6_4 /\
  snd (is_balanced_aux (Node 2 (leaf 1 0) (Node 4 (leaf 3 0) nullptr 1) 2)) = 2 /\
  snd (is_balanced_aux (leaf 6 1)) = 0 /\
  is_balanced tree_1_2_3_5_6_4 = false.
Proof.
  repeat split.
  exists [Insert 1; Insert 2; Insert 3; Insert 5; Insert 6; Insert 4],
    [true; true; true; true; true; true].
  reflexivity.
Qed.

(** C3.  In every state reachable from the empty tree by [insert] and
    [remove] calls, at every node all values of the left subtree are
    strictly smaller than the node's value and all values of the right
    subtree strictly larger. *)
Theorem C3_bst_invariant (root : TreeNode) :
  reachable root -> bst root.
Proof.
  intros H. apply reachable_Inv in H. apply H.
Qed.

Lemma C3_bst_invariant_witness :
  reachable tree_seven /\ bst tree_seven.
Proof.
  assert (R : reachable tree_seven).
  { exists [Insert 50; Insert 30; Insert 70; Insert 20; Insert 40;
            Insert 60; Insert 80],
      [true; true; true; true; true; true; true].
    reflexivity. }
  split; [exact R | apply (C3_bst_invariant tree_seven R)].
Defined.

(** C4.  Any sequence of [insert] and [remove] calls on the empty tree
    runs to the end, and then [in_order()] is strictly ascending, lists
    exactly the values currently present (those whose last call was an
    insertion, which are those [contain] finds), and its length is the
    number of [insert] calls that returned true minus the number of
    [remove] calls that returned true. *)
Theorem C4_in_order_sorted_present_counted (ops : list op) :
  exists root bs,
    run nullptr ops = Some (root, bs) /\
    StronglySorted Z.lt (in_order root) /\
    (forall x, In x (in_order root) <-> member_after ops x false = true) /\
    (forall x, In x (in_order root) <-> contain root x = true) /\
    (removed_ok ops bs <= inserted_ok ops bs)%nat /\
    length (in_order root) = (inserted_ok ops bs - removed_ok ops bs)%nat.
Proof.
  destruct (run_total nullptr ops Inv_nullptr) as (root & bs & E & HI).
  exists root, bs.
  pose proof (run_count _ _ _ _ Inv_nullptr E) as C. cbn in C.
  destruct HI as (Hb & _).
  split; [exact E|].
  split; [now apply bst_sorted_iff|].
  split.
  { intros x.
    rewrite <- (contain_in _ _ Hb), (run_contain _ _ _ _ x Inv_nullptr E).
    reflexivity. }
  split.
  { intros x. symmetry. now apply contain_in. }
  lia.
Qed.

(** C5.  In a reachable state, [insert(x)] returns, and if it returns
    true then [contain(x)] is true right afterwards; [remove(x)] returns,
    and if it returns true then [contain(x)] is false right afterwards. *)
Theorem C5_membership_after_success (root : TreeNode) (x : Z) :
  reachable root ->
  (exists root' b, insert root x = Some (root', b) /\
     (b = true -> contain root' x = true)) /\
  (exists root' b, remove root x = Some (root', b) /\
     (b = true -> contain root' x = false)).
Proof.
  intros H. apply reachable_Inv in H as (Hb & Hh). split.
  - destruct (insert_total root x Hh) as (root' & b & E & _).
    exists root', b. split; [exact E|]. intros _.
    rewrite (insert_contain _ _ _ _ x Hb E), Z.eqb_refl. reflexivity.
  - destruct (remove_total root x Hh) as (root' & b & E & _).
    exists root', b. split; [exact E|]. intros _.
    rewrite (remove_contain _ _ _ _ x Hb E), Z.eqb_refl. reflexivity.
Qed.

Lemma C5_membership_after_success_witness :
  reachable tree_10_20_30 /\
  (exists root' b, insert tree_10_20_30 25 = Some (root', b) /\
     (b = true -> contain root' 25 = true)) /\
  (exists root' b, remove tree_10_20_30 25 = Some (root', b) /\
     (b = true -> contain root' 25 = false)).
Proof.
  assert (R : reachable tree_10_20_30).
  { exists [Insert 10; Insert 20; Insert 30], [true; true; true].
    reflexivity. }
  split; [exact R | apply (C5_membership_after_success tree_10_20_30 25 R)].
Defined.

(** C6.  In a reachable state, [insert(x)] of a value that is already in
    the tree returns false and leaves the tree as it was; in particular
    [in_order()] is the same before and after. *)
Theorem C6_insert_duplicate_unchanged (root : TreeNode) (x : Z) :
  reachable root -> In x (in_order root) ->
  exists root', insert root x = Some (root', false) /\
    root' = root /\ in_order root' = in_order root.
Proof.
  intros H Hin. apply reachable_Inv in H as (Hb & Hh).
  destruct (insert_total root x Hh) as (root' & b & E & _).
  pose proof (insert_flag _ _ _ _ E) as F.
  apply (contain_in _ _ Hb) in Hin. rewrite Hin in F. cbn in F. subst b.
  pose proof (insert_false _ _ _ E) as ->.
  exists root. auto.
Qed.

Lemma C6_insert_duplicate_unchanged_witness :
  reachable tree_10_20_30 /\ In 30 (in_order tree_10_20_30) /\
  exists root', insert tree_10_20_30 30 = Some (root', false) /\
    root' = tree_10_20_30 /\ in_order root' = in_order tree_10_20_30.
Proof.
  assert (R : reachable tree_10_20_30).
  { exists [Insert 10; Insert 20; Insert 30], [true; true; true].
    reflexivity. }
  assert (P : In 30 (in_order tree_10_20_30)).
  { vm_compute. lia. }
  split; [exact R|]. split; [exact P|].
  apply (C6_insert_duplicate_unchanged tree_10_20_30 30 R P).
Defined.

(** C7.  In a reachable state, [remove(x)] of a value that is not in the
    tree returns false and leaves the tree as it was; two such calls in
    a row both return false and change nothing. *)
Theorem C7_remove_absent_unchanged (root : TreeNode) (x : Z) :
  reachable root -> ~ In x (in_order root) ->
  remove root x = Some (root, false) /\
  run root [Remove x; Remove x] = Some (root, [false; false]).
Proof.
  intros H Hin. apply reachable_Inv in H as (Hb & Hh).
  destruct (remove_total root x Hh) as (root' & b & E & _).
  pose proof (remove_flag _ _ _ _ E) as F.
  rewrite <- (contain_in _ _ Hb) in Hin.
  apply not_true_is_false in Hin. rewrite Hin in F. subst b.
  pose proof (remove_false _ _ _ E) as ->.
  split; [exact E|].
  cbn [run step]. rewrite E. cbn [bind]. rewrite E. reflexivity.
Qed.

Lemma C7_remove_absent_unchanged_witness :
  reachable tree_10_20_30 /\ ~ In 25 (in_order tree_10_20_30) /\
  remove tree_10_20_30 25 = Some (tree_10_20_30, false) /\
  run tree_10_20_30 [Remove 25; Remove 25]
    = Some (tree_10_20_30, [false; false]).
Proof.
  assert (R : reachable tree_10_20_30).
  { exists [Insert 10; Insert 20; Insert 30], [true; true; true].
    reflexivity. }
  assert (P : ~ In 25 (in_order tree_10_20_30)).
  { vm_compute. lia. }
  split; [exact R|]. split; [exact P|].
  apply (C7_remove_absent_unchanged tree_10_20_30 25 R P).
Defined.

(** C8.  Inserting 10, 20, 30 into the empty tree: over the three calls
    [balance] rotates exactly once, a simple left rotation at the root
    (depth 0, at the node holding 10; it happens while [insert(20)]
    unwinds, and the [balance] call of [insert(30)] does not rotate).
    Afterwards [in_order()] = [10, 20, 30], [pre_order()] =
    [20, 10, 30], the root holds 20 and [is_balanced()] is true. *)
Theorem C8_insert_10_20_30 :
  run nullptr [Insert 10; Insert 20; Insert 30]
    = Some (tree_10_20_30, [true; true; true]) /\
  inserts_trace nullptr [10; 20; 30]
    = [(O, 10, SingleLeft); (O, 20, NoRotation)] /\
  in_order tree_10_20_30 = [10; 20; 30] /\
  pre_order tree_10_20_30 = [20; 10; 30] /\
  root_data tree_10_20_30 = Some 20 /\
  is_balanced tree_10_20_30 = true.
Proof. repeat split. Qed.

(** C9.  Inserting 50, 30, 70, 20, 40, 60, 80 into the empty tree gives a
    tree in which the node holding 30 has two children; [min()] of its
    right subtree is the node holding 40; [remove(30)] returns true and
    leaves 40 in the place of 30, above the unchanged left child 20.
    Afterwards [in_order()] = [20, 40, 50, 60, 70, 80] and
    [is_balanced()] is true. *)
Theorem C9_remove_30_two_children :
  run nullptr [Insert 50; Insert 30; Insert 70; Insert 20; Insert 40;
               Insert 60; Insert 80]
    = Some (tree_seven, [true; true; true; true; true; true; true]) /\
  tree_seven = Node 50 (Node 30 (leaf 20 0) (leaf 40 1) 2)
                       (Node 70 (leaf 60 0) (leaf 80 1) 2) 3 /\
  TreeNode_min (leaf 40 1) = leaf 40 1 /\
  remove tree_seven 30 = Some (tree_seven_without_30, true) /\
  tree_seven_without_30 = Node 50 (Node 40 (leaf 20 0) nullptr 1)
                                  (Node 70 (leaf 60 0) (leaf 80 1) 2) 3 /\
  in_order tree_seven_without_30 = [20; 40; 50; 60; 70; 80] /\
  is_balanced tree_seven_without_30 = true.
Proof. repeat split. Qed.

(** C10.  In a reachable state, for distinct values x and y, neither
    [insert(x)] nor [remove(x)] changes what [contain(y)] returns. *)
Theorem C10_other_members_kept (root : TreeNode) (x y : Z) :
  reachable root -> x <> y ->
  (exists root' b, insert root x = Some (root', b) /\
     contain root' y = contain root y) /\
  (exists root' b, remove root x = Some (root', b) /\
     contain root' y = contain root y).
Proof.
  intros H Ne. apply reachable_Inv in H as (Hb & Hh).
  assert (N : (y =? x) = false) by (apply Z.eqb_neq; congruence).
  split.
  - destruct (insert_total root x Hh) as (root' & b & E & _).
    exists root', b. split; [exact E|].
    now rewrite (insert_contain _ _ _ _ y Hb E), N.
  - destruct (remove_total root x Hh) as (root' & b & E & _).
    exists root', b. split; [exact E|].
    now rewrite (remove_contain _ _ _ _ y Hb E), N.
Qed.

Lemma C10_other_members_kept_witness :
  reachable tree_seven /\ 30 <> 40 /\
  (exists root' b, insert tree_seven 30 = Some (root', b) /\
     contain root' 40 = contain tree_seven 40) /\
  (exists root' b, remove tree_seven 30 = Some (root', b) /\
     contain root' 40 = contain tree_seven 40).
Proof.
  assert (R : reachable tree_seven).
  { exists [Insert 50; Insert 30; Insert 70; Insert 20; Insert 40;
            Insert 60; Insert 80],
      [true; true; true; true; true; true; true].
    reflexivity. }
  assert (N : 30 <> 40) by lia.
  split; [exact R|]. split; [exact N|].
  apply (C10_other_members_kept tree_seven 30 40 R N).
Defined.

(** ** Both outcomes of C5 occur *)

Example insert_absent_then_contained :
  exists root', insert tree_10_20_30 25 = Some (root', true) /\
    contain root' 25 = true.
Proof. eexists. split; reflexivity. Qed.

Example remove_present_then_not_contained :
  exists root', remove tree_10_20_30 20 = Some (root', true) /\
    contain root' 20 = false.
Proof. eexists. split; reflexivity. Qed.

(** * Further properties of the code *)

(** ** Reachability is closed under calls *)

Lemma run_app (root : TreeNode) (ops1 ops2 : list op) :
  run root (ops1 ++ ops2) =
  '(mid, bs1) <- run root ops1 ;;
  '(root', bs2) <- run mid ops2 ;;
  Some (root', bs1 ++ bs2).
Proof.
  revert root. induction ops1 as [|o ops1 IH]; intros root.
  - cbn. destruct (run root ops2) as [[r bs]|]; reflexivity.
  - cbn [app run]. destruct (step root o) as [[m b]|]; [|reflexivity].
    cbn [bind]. rewrite IH.
    destruct (run m ops1) as [[m' bs1]|]; [|reflexivity]. cbn [bind].
    destruct (run m' ops2) as [[r bs2]|]; reflexivity.
Qed.

Lemma reachable_step (root : TreeNode) (o : op) (root' : TreeNode) (b : bool) :
  reachable root -> step root o = Some (root', b) -> reachable root'.
Proof.
  intros (ops & bs & E) S.
  exists (ops ++ [o]), (bs ++ [b]).
  rewrite run_app, E. cbn [bind run]. rewrite S. reflexivity.
Qed.

(** A property kept by every call holds after any sequence of calls. *)
Lemma run_invariant (P : TreeNode -> Prop) :
  (forall root o root' b, P root -> step root o = Some (root', b) -> P root') ->
  forall ops root root' bs,
    P root -> run root ops = Some (root', bs) -> P root'.
Proof.
  intros Hstep. induction ops as [|o ops IH]; intros root root' bs HP E.
  - cbn in E. now some_inv.
  - apply run_cons_inv in E as (mid & b & bs' & E1 & E2 & _).
    eauto.
Qed.

(** X1.  In a state reachable from the empty tree, every [insert] and
    every [remove] call returns without dereferencing a null pointer
    (neither [balance] nor [min()] meets one), and the state it leaves
    is reachable again. *)
Theorem X1_calls_meet_no_null_pointer (root : TreeNode) (o : op) :
  reachable root ->
  exists root' b, step root o = Some (root', b) /\ reachable root'.
Proof.
  intros R.
  destruct (step_total root o (reachable_Inv _ R)) as (root' & b & E & _).
  exists root', b. split; [exact E | exact (reachable_step _ _ _ _ R E)].
Qed.

Lemma X1_calls_meet_no_null_pointer_witness :
  reachable tree_seven /\
  exists root' b, step tree_seven (Remove 50) = Some (root', b) /\
    reachable root'.
Proof.
  assert (R : reachable tree_seven).
  { exists [Insert 50; Insert 30; Insert 70; Insert 20; Insert 40;
            Insert 60; Insert 80],
      [true; true; true; true; true; true; true].
    reflexivity. }
  split; [exact R |
          apply (X1_calls_meet_no_null_pointer tree_seven (Remove 50) R)].
Defined.

(** ** Stored heights never underestimate *)

Lemma structural_height_Node (d : Z) (l r : TreeNode) (h : Z) :
  structural_height (Node d l r h) =
  1 + Z.max (structural_height l) (structural_height r).
Proof. reflexivity. Qed.

Lemma structural_height_nullptr : structural_height nullptr = -1.
Proof. reflexivity. Qed.

Lemma structural_height_lower_bound (node : TreeNode) :
  -1 <= structural_height node.
Proof.
  induction node as [|d l IHl r IHr h].
  - rewrite structural_height_nullptr. lia.
  - rewrite structural_height_Node. lia.
Qed.

Lemma dominate_height (node : TreeNode) :
  heights_dominate node -> structural_height node <= height node.
Proof.
  destruct node as [|d l r h]; cbn [heights_dominate height].
  - rewrite structural_height_nullptr. lia.
  - tauto.
Qed.

Lemma refresh_dominate (d : Z) (l r : TreeNode) :
  heights_dominate l -> heights_dominate r ->
  heights_dominate (refresh d l r).
Proof.
  intros Hl Hr. unfold refresh. cbn [heights_dominate].
  rewrite structural_height_Node.
  pose proof (dominate_height _ Hl). pose proof (dominate_height _ Hr).
  repeat split; auto; lia.
Qed.

Lemma balance_dominate (node node' : TreeNode) :
  balance node = Some node' -> heights_dominate node -> heights_dominate node'.
Proof.
  unfold balance, bind, double_left_right, double_right_left,
    single_right, single_left.
  intros H Hd.
  repeat (split_match; some_inv; try discriminate);
    try exact I;
    cbn [heights_dominate] in Hd; split_ands;
    repeat match goal with
    | |- heights_dominate (refresh _ _ _) => apply refresh_dominate
    end;
    try assumption;
    cbn [heights_dominate]; rewrite ?structural_height_Node in *;
    repeat split; try assumption; lia.
Qed.

Lemma insert_dominate (node : TreeNode) (x : Z) (node' : TreeNode) (b : bool) :
  heights_dominate node -> insert node x = Some (node', b) ->
  heights_dominate node'.
Proof.
  revert node' b.
  induction node as [|d l IHl r IHr h]; intros node' b Hd H.
  - cbn in H. some_inv. cbn [new_TreeNode heights_dominate].
    rewrite structural_height_Node, structural_height_nullptr.
    repeat split; lia.
  - destruct b; [|now rewrite (insert_false _ _ _ H)].
    destruct Hd as (_ & Hl & Hr).
    apply insert_Node_inv in H
      as [(_ & _ & F) | [(_ & l' & Hl' & B) | (_ & r' & Hr' & B)]];
      [discriminate | |];
      apply (balance_dominate _ _ B), refresh_dominate; eauto.
Qed.

Lemma remove_finish_dominate (node : TreeNode) (b : bool)
      (node' : TreeNode) (b' : bool) :
  remove_finish node b = Some (node', b') ->
  match node with
  | nullptr => True
  | Node _ l r _ => heights_dominate l /\ heights_dominate r
  end ->
  (b = false -> heights_dominate node) ->
  heights_dominate node'.
Proof.
  unfold remove_finish. intros H Hc Hf.
  destruct b; [destruct node as [|d l r h]|]; some_inv; auto.
  destruct (balance (refresh d l r)) as [n|] eqn:B; cbn [bind] in H; some_inv.
  apply (balance_dominate _ _ B), refresh_dominate; tauto.
Qed.

Lemma heights_dominate_children (node : TreeNode) :
  heights_dominate node ->
  match node with
  | nullptr => True
  | Node _ l r _ => heights_dominate l /\ heights_dominate r
  end.
Proof. destruct node; cbn [heights_dominate]; tauto. Qed.

Lemma remove_dominate (node : TreeNode) (x : Z) (node' : TreeNode) (b : bool) :
  heights_dominate node -> remove node x = Some (node', b) ->
  heights_dominate node'.
Proof.
  revert x node' b.
  induction node as [|d l IHl r IHr h]; intros x node' b Hd H.
  - cbn in H. some_inv. exact I.
  - destruct b; [|now rewrite (remove_false _ _ _ H)].
    pose proof Hd as (_ & Hl & Hr).
    apply remove_Node_inv in H
      as [(_ & l' & b0 & Hl' & F) | [(_ & r' & b0 & Hr' & F) |
          [(_ & _ & F) | [(_ & _ & _ & F) | (_ & _ & _ & R)]]]].
    + apply (remove_finish_dominate _ _ _ _ F); [split; eauto|].
      intros ->. apply remove_finish_spec in F as (F & _). discriminate.
    + apply (remove_finish_dominate _ _ _ _ F); [split; eauto|].
      intros ->. apply remove_finish_spec in F as (F & _). discriminate.
    + apply (remove_finish_dominate _ _ _ _ F);
        [now apply heights_dominate_children | discriminate].
    + apply (remove_finish_dominate _ _ _ _ F);
        [now apply heights_dominate_children | discriminate].
    + destruct R as (sd & sl & sr & sh & r' & b0 & _ & R & F).
      apply (remove_finish_dominate _ _ _ _ F); [split; eauto | discriminate].
Qed.

Lemma step_dominate (root : TreeNode) (o : op) (root' : TreeNode) (b : bool) :
  heights_dominate root -> step root o = Some (root', b) ->
  heights_dominate root'.
Proof.
  destruct o as [v|v]; cbn [step];
    eauto using insert_dominate, remove_dominate.
Qed.

(** X2.  In every reachable state the height stored in a node is at
    least the structural height of its subtree (a missing subtree
    counting -1), hence never negative: the cached heights can be too
    large, never too small. *)
Theorem X2_stored_height_bounds_structural (root : TreeNode) :
  reachable root -> heights_dominate root /\ heights_nonneg root.
Proof.
  intros R. split; [|apply (reachable_Inv _ R)].
  destruct R as (ops & bs & E).
  apply (run_invariant heights_dominate step_dominate ops nullptr root bs);
    [exact I | exact E].
Qed.

Lemma X2_stored_height_bounds_structural_witness :
  reachable tree_1_2_3_5_6_4 /\
  heights_dominate tree_1_2_3_5_6_4 /\ heights_nonneg tree_1_2_3_5_6_4.
Proof.
  assert (R : reachable tree_1_2_3_5_6_4).
  { exists [Insert 1; Insert 2; Insert 3; Insert 5; Insert 6; Insert 4],
      [true; true; true; true; true; true].
    reflexivity. }
  split; [exact R | apply (X2_stored_height_bounds_structural _ R)].
Defined.

(** ** What [balance] keeps and what it sets *)

(** X3.  Whenever [balance] returns, the rebalanced subtree has the same
    in-order sequence as before, and it is a search tree if the subtree
    was one: rotations move nodes, never values out of order. *)
Theorem X3_balance_keeps_in_order (node node' : TreeNode) :
  balance node = Some node' ->
  in_order node' = in_order node /\ (bst node -> bst node').
Proof.
  intros H. split.
  - exact (balance_in_order _ _ H).
  - exact (balance_bst _ _ H).
Qed.

Lemma X3_balance_keeps_in_order_witness :
  balance (Node 30 (Node 10 nullptr (leaf 20 1) 2) nullptr 3)
    = Some (Node 20 (Node 10 nullptr nullptr 2) (leaf 30 0) 3) /\
  in_order (Node 20 (Node 10 nullptr nullptr 2) (leaf 30 0) 3)
    = in_order (Node 30 (Node 10 nullptr (leaf 20 1) 2) nullptr 3) /\
  (bst (Node 30 (Node 10 nullptr (leaf 20 1) 2) nullptr 3) ->
   bst (Node 20 (Node 10 nullptr nullptr 2) (leaf 30 0) 3)).
Proof.
  assert (E : balance (Node 30 (Node 10 nullptr (leaf 20 1) 2) nullptr 3)
              = Some (Node 20 (Node 10 nullptr nullptr 2) (leaf 30 0) 3))
    by reflexivity.
  split; [exact E | apply (X3_balance_keeps_in_order _ _ E)].
Defined.

(** X4.  Whenever [balance] returns a node, whichever branch it took,
    the height stored in that top node is one more than the larger of
    the heights stored in its two children ([-1] for a missing child). *)
Theorem X4_balance_top_height (node : TreeNode)
        (d : Z) (l r : TreeNode) (h : Z) :
  balance node = Some (Node d l r h) ->
  h = Z.max (height l) (height r) + 1.
Proof.
  unfold balance, bind, double_left_right, double_right_left,
    single_right, single_left, refresh.
  intros H.
  repeat (split_match; some_inv; try discriminate); reflexivity.
Qed.

Lemma X4_balance_top_height_witness :
  balance (Node 30 (Node 10 nullptr (leaf 20 1) 2) nullptr 3)
    = Some (Node 20 (Node 10 nullptr nullptr 2) (leaf 30 0) 3) /\
  3 = Z.max (height (Node 10 nullptr nullptr 2)) (height (leaf 30 0)) + 1.
Proof.
  assert (E : balance (Node 30 (Node 10 nullptr (leaf 20 1) 2) nullptr 3)
              = Some (Node 20 (Node 10 nullptr nullptr 2) (leaf 30 0) 3))
    by reflexivity.
  split; [exact E | apply (X4_balance_top_height _ _ _ _ _ E)].
Defined.

(** ** Traversals *)

Lemma pre_order_aux_app (node : TreeNode) (result : list Z) :
  pre_order_aux node result = result ++ pre_order node.
Proof.
  unfold pre_order. revert result.
  induction node as [|d l IHl r IHr h]; intros result; cbn [pre_order_aux].
  - now rewrite app_nil_r.
  - rewrite IHr, IHl, (IHr (pre_order_aux l _)), (IHl ([] ++ [d])).
    now rewrite <- !app_assoc.
Qed.

Lemma post_order_aux_app (node : TreeNode) (result : list Z) :
  post_order_aux node result = result ++ post_order node.
Proof.
  unfold post_order. revert result.
  induction node as [|d l IHl r IHr h]; intros result; cbn [post_order_aux].
  - now rewrite app_nil_r.
  - rewrite IHr, IHl, (IHr (post_order_aux l [])), (IHl []).
    now rewrite <- !app_assoc.
Qed.

Lemma pre_order_Node (d : Z) (l r : TreeNode) (h : Z) :
  pre_order (Node d l r h) = d :: pre_order l ++ pre_order r.
Proof.
  unfold pre_order at 1. cbn [pre_order_aux].
  rewrite pre_order_aux_app, (pre_order_aux_app l). reflexivity.
Qed.

Lemma post_order_Node (d : Z) (l r : TreeNode) (h : Z) :
  post_order (Node d l r h) = post_order l ++ post_order r ++ [d].
Proof.
  unfold post_order at 1. cbn [post_order_aux].
  rewrite post_order_aux_app, (post_order_aux_app l). cbn [app].
  now rewrite <- app_assoc.
Qed.

(** X5.  The helper of [in_order()] only appends to [result], and at a
    node the sequence is: left subtree, the node's value, right
    subtree. *)
Theorem X5_in_order_left_self_right :
  (forall node result, in_order_aux node result = result ++ in_order node) /\
  (forall d l r h,
     in_order (Node d l r h) = in_order l ++ [d] ++ in_order r).
Proof.
  split.
  - exact in_order_aux_app.
  - intros. apply in_order_Node.
Qed.

(** X6.  The helper of [pre_order()] only appends to [result], and at a
    node the sequence is: the node's value, left subtree, right
    subtree. *)
Theorem X6_pre_order_self_left_right :
  (forall node result, pre_order_aux node result = result ++ pre_order node) /\
  (forall d l r h,
     pre_order (Node d l r h) = [d] ++ pre_order l ++ pre_order r).
Proof.
  split.
  - exact pre_order_aux_app.
  - intros. apply pre_order_Node.
Qed.

(** X7.  The helper of [post_order()] only appends to [result], and at
    a node the sequence is: left subtree, right subtree, the node's
    value. *)
Theorem X7_post_order_left_right_self :
  (forall node result,
     post_order_aux node result = result ++ post_order node) /\
  (forall d l r h,
     post_order (Node d l r h) = post_order l ++ post_order r ++ [d]).
Proof.
  split.
  - exact post_order_aux_app.
  - intros. apply post_order_Node.
Qed.

(** X8.  On any tree the three traversals return the same values with
    the same multiplicities, only in different orders; in particular
    the three vectors have the same length. *)
Theorem X8_traversals_same_values (root : TreeNode) :
  Permutation (pre_order root) (in_order root) /\
  Permutation (post_order root) (in_order root) /\
  length (pre_order root) = length (in_order root) /\
  length (post_order root) = length (in_order root).
Proof.
  assert (P : Permutation (pre_order root) (in_order root) /\
              Permutation (post_order root) (in_order root)).
  { induction root as [|d l [IHl1 IHl2] r [IHr1 IHr2] h].
    - split; apply perm_nil.
    - rewrite in_order_Node, pre_order_Node, post_order_Node. split.
      + etransitivity; [|apply Permutation_middle].
        apply perm_skip, Permutation_app; assumption.
      + etransitivity; [|apply Permutation_middle].
        rewrite app_assoc.
        etransitivity; [symmetry; apply Permutation_cons_append|].
        apply perm_skip, Permutation_app; assumption. }
  destruct P as (P1 & P2).
  repeat split; auto using Permutation_length.
Qed.

(** ** [min()] and [max()] *)

Lemma TreeNode_min_spec (d : Z) (l r : TreeNode) (h : Z) :
  exists sd sr sh rest,
    TreeNode_min (Node d l r h) = Node sd nullptr sr sh /\
    in_order (Node d l r h) = sd :: rest.
Proof.
  revert d r h. induction l as [|ld ll IHll lr _ lh]; intros d r h.
  - exists d, r, h, (in_order r).
    split; [reflexivity | now rewrite in_order_Node].
  - destruct (IHll ld lr lh) as (sd & sr & sh & rest & M & E).
    exists sd, sr, sh, (rest ++ d :: in_order r).
    split; [exact M|].
    rewrite in_order_Node, E. reflexivity.
Qed.

Lemma TreeNode_max_spec (d : Z) (l r : TreeNode) (h : Z) :
  exists sd sl sh rest,
    TreeNode_max (Node d l r h) = Node sd sl nullptr sh /\
    in_order (Node d l r h) = rest ++ [sd].
Proof.
  revert d l h. induction r as [|rd rl _ rr IHrr rh]; intros d l h.
  - exists d, l, h, (in_order l).
    split; [reflexivity | now rewrite in_order_Node].
  - destruct (IHrr rd rl rh) as (sd & sl & sh & rest & M & E).
    exists sd, sl, sh, (in_order l ++ d :: rest).
    split; [exact M|].
    rewrite in_order_Node, E, <- app_assoc. reflexivity.
Qed.

(** X9.  Called on a node, [min()] returns a node without left child
    whose value is the first of the in-order sequence of the subtree; in
    a search tree every other value of the subtree is larger. *)
Theorem X9_min_is_first (this : TreeNode) :
  this <> nullptr ->
  exists sd sr sh rest,
    TreeNode_min this = Node sd nullptr sr sh /\
    in_order this = sd :: rest /\
    (bst this -> Forall (fun y => sd < y) rest).
Proof.
  intros Hn. destruct this as [|d l r h]; [contradiction|].
  destruct (TreeNode_min_spec d l r h) as (sd & sr & sh & rest & M & E).
  exists sd, sr, sh, rest. repeat split; [exact M | exact E |].
  intros Hb. apply bst_sorted_iff in Hb. rewrite E in Hb.
  now inversion Hb.
Qed.

Lemma X9_min_is_first_witness :
  tree_seven <> nullptr /\
  exists sd sr sh rest,
    TreeNode_min tree_seven = Node sd nullptr sr sh /\
    in_order tree_seven = sd :: rest /\
    (bst tree_seven -> Forall (fun y => sd < y) rest).
Proof.
  assert (N : tree_seven <> nullptr) by discriminate.
  split; [exact N | apply (X9_min_is_first tree_seven N)].
Defined.

(** X10.  Called on a node, [max()] returns a node without right child
    whose value is the last of the in-order sequence of the subtree; in
    a search tree every other value of the subtree is smaller. *)
Theorem X10_max_is_last (this : TreeNode) :
  this <> nullptr ->
  exists sd sl sh rest,
    TreeNode_max this = Node sd sl nullptr sh /\
    in_order this = rest ++ [sd] /\
    (bst this -> Forall (fun y => y < sd) rest).
Proof.
  intros Hn. destruct this as [|d l r h]; [contradiction|].
  destruct (TreeNode_max_spec d l r h) as (sd & sl & sh & rest & M & E).
  exists sd, sl, sh, rest. repeat split; [exact M | exact E |].
  intros Hb. apply bst_sorted_iff in Hb. rewrite E in Hb.
  apply sorted_app_iff in Hb. tauto.
Qed.

Lemma X10_max_is_last_witness :
  tree_seven <> nullptr /\
  exists sd sl sh rest,
    TreeNode_max tree_seven = Node sd sl nullptr sh /\
    in_order tree_seven = rest ++ [sd] /\
    (bst tree_seven -> Forall (fun y => y < sd) rest).
Proof.
  assert (N : tree_seven <> nullptr) by discriminate.
  split; [exact N | apply (X10_max_is_last tree_seven N)].
Defined.

(** ** Return values and repeated calls *)

(** X11.  In a reachable state [insert(x)] returns true exactly when
    [contain(x)] was false before the call, and [remove(x)] returns true
    exactly when [contain(x)] was true. *)
Theorem X11_flags_report_membership (root : TreeNode) (x : Z) :
  reachable root ->
  (exists root', insert root x = Some (root', negb (contain root x))) /\
  (exists root', remove root x = Some (root', contain root x)).
Proof.
  intros R. apply reachable_Inv in R as (_ & Hh). split.
  - destruct (insert_total root x Hh) as (root' & b & E & _).
    exists root'. now rewrite <- (insert_flag _ _ _ _ E).
  - destruct (remove_total root x Hh) as (root' & b & E & _).
    exists root'. now rewrite <- (remove_flag _ _ _ _ E).
Qed.

Lemma X11_flags_report_membership_witness :
  reachable tree_10_20_30 /\
  (exists root',
     insert tree_10_20_30 15 = Some (root', negb (contain tree_10_20_30 15))) /\
  (exists root',
     remove tree_10_20_30 15 = Some (root', contain tree_10_20_30 15)).
Proof.
  assert (R : reachable tree_10_20_30).
  { exists [Insert 10; Insert 20; Insert 30], [true; true; true].
    reflexivity. }
  split; [exact R | apply (X11_flags_report_membership tree_10_20_30 15 R)].
Defined.

(** X12.  In a reachable state, a second [insert(x)] right after a first
    one returns false and leaves the tree as the first call left it; the
    same holds for a second [remove(x)] right after a first one. *)
Theorem X12_repeated_call_is_noop (root : TreeNode) (x : Z) :
  reachable root ->
  (exists root' b, insert root x = Some (root', b) /\
     insert root' x = Some (root', false)) /\
  (exists root' b, remove root x = Some (root', b) /\
     remove root' x = Some (root', false)).
Proof.
  intros R. apply reachable_Inv in R as (Hb & Hh). split.
  - destruct (insert_total root x Hh) as (root' & b & E & Hh').
    exists root', b. split; [exact E|].
    destruct (insert_total root' x Hh') as (root'' & b' & E' & _).
    pose proof (insert_flag _ _ _ _ E') as F.
    rewrite (insert_contain _ _ _ _ x Hb E), Z.eqb_refl in F.
    cbn in F. subst b'.
    now rewrite <- (insert_false _ _ _ E') at 2.
  - destruct (remove_total root x Hh) as (root' & b & E & Hh').
    exists root', b. split; [exact E|].
    destruct (remove_total root' x Hh') as (root'' & b' & E' & _).
    pose proof (remove_flag _ _ _ _ E') as F.
    rewrite (remove_contain _ _ _ _ x Hb E), Z.eqb_refl in F.
    cbn in F. subst b'.
    now rewrite <- (remove_false _ _ _ E') at 2.
Qed.

Lemma X12_repeated_call_is_noop_witness :
  reachable tree_10_20_30 /\
  (exists root' b, insert tree_10_20_30 15 = Some (root', b) /\
     insert root' 15 = Some (root', false)) /\
  (exists root' b, remove tree_10_20_30 20 = Some (root', b) /\
     remove root' 20 = Some (root', false)).
Proof.
  assert (R : reachable tree_10_20_30).
  { exists [Insert 10; Insert 20; Insert 30], [true; true; true].
    reflexivity. }
  split; [exact R|]. split.
  - apply (X12_repeated_call_is_noop tree_10_20_30 15 R).
  - apply (X12_repeated_call_is_noop tree_10_20_30 20 R).
Defined.

(** ** Round trips and canonical order *)

Lemma sorted_same_members_eq (l1 l2 : list Z) :
  StronglySorted Z.lt l1 -> StronglySorted Z.lt l2 ->
  (forall x, In x l1 <-> In x l2) -> l1 = l2.
Proof.
  revert l2. induction l1 as [|a l1 IH]; intros l2 S1 S2 M.
  - destruct l2 as [|b l2]; [reflexivity|].
    destruct (proj2 (M b) (or_introl eq_refl)).
  - destruct l2 as [|b l2]; [destruct (proj1 (M a) (or_introl eq_refl))|].
    inversion S1 as [|? ? Sa Fa]; subst.
    inversion S2 as [|? ? Sb Fb]; subst.
    rewrite Forall_forall in Fa, Fb.
    assert (a = b).
    { destruct (proj1 (M a) (or_introl eq_refl)) as [E|Hin]; [auto|].
      destruct (proj2 (M b) (or_introl eq_refl)) as [E|Hin']; [auto|].
      apply Fb in Hin. apply Fa in Hin'. lia. }
    subst b. f_equal. apply IH; auto.
    intros x; split; intros Hx.
    + destruct (proj1 (M x) (or_intror Hx)) as [E|]; [|assumption].
      subst x. apply Fa in Hx. lia.
    + destruct (proj2 (M x) (or_intror Hx)) as [E|]; [|assumption].
      subst x. apply Fb in Hx. lia.
Qed.

Lemma sorted_perm_eq (l1 l2 : list Z) :
  StronglySorted Z.lt l1 -> StronglySorted Z.lt l2 ->
  Permutation l1 l2 -> l1 = l2.
Proof.
  intros S1 S2 P. apply sorted_same_members_eq; auto.
  intros x; split; intros Hx.
  - exact (Permutation_in _ P Hx).
  - exact (Permutation_in _ (Permutation_sym P) Hx).
Qed.

(** X13.  In a reachable state where [contain(x)] is false, [insert(x)]
    followed by [remove(x)] both return true and give back the in-order
    sequence the tree had (the shape of the tree may differ). *)
Theorem X13_insert_then_remove (root : TreeNode) (x : Z) :
  reachable root -> contain root x = false ->
  exists mid root',
    insert root x = Some (mid, true) /\
    remove mid x = Some (root', true) /\
    in_order root' = in_order root.
Proof.
  intros R C. apply reachable_Inv in R as (Hb & Hh).
  destruct (insert_total root x Hh) as (mid & b & E & Hh').
  pose proof (insert_flag _ _ _ _ E) as F. rewrite C in F. cbn in F. subst b.
  pose proof (insert_bst _ _ _ _ Hb E) as Hb'.
  destruct (remove_total mid x Hh') as (root' & b & E' & _).
  pose proof (remove_flag _ _ _ _ E') as F.
  rewrite (insert_contain _ _ _ _ x Hb E), Z.eqb_refl in F. cbn in F. subst b.
  exists mid, root'. repeat split; auto.
  apply sorted_perm_eq.
  - apply bst_sorted_iff. exact (remove_bst _ _ _ _ Hb' E').
  - now apply bst_sorted_iff.
  - apply (Permutation_cons_inv (a := x)).
    etransitivity; [symmetry; apply (remove_perm _ _ _ Hb' E')|].
    symmetry. apply (insert_perm _ _ _ E).
Qed.

Lemma X13_insert_then_remove_witness :
  reachable tree_seven /\ contain tree_seven 45 = false /\
  exists mid root',
    insert tree_seven 45 = Some (mid, true) /\
    remove mid 45 = Some (root', true) /\
    in_order root' = in_order tree_seven.
Proof.
  assert (R : reachable tree_seven).
  { exists [Insert 50; Insert 30; Insert 70; Insert 20; Insert 40;
            Insert 60; Insert 80],
      [true; true; true; true; true; true; true].
    reflexivity. }
  assert (C : contain tree_seven 45 = false) by reflexivity.
  split; [exact R|]. split; [exact C|].
  apply (X13_insert_then_remove tree_seven 45 R C).
Defined.

(** X14.  In a reachable state where [contain(x)] is true, [remove(x)]
    followed by [insert(x)] both return true and give back the in-order
    sequence the tree had. *)
Theorem X14_remove_then_insert (root : TreeNode) (x : Z) :
  reachable root -> contain root x = true ->
  exists mid root',
    remove root x = Some (mid, true) /\
    insert mid x = Some (root', true) /\
    in_order root' = in_order root.
Proof.
  intros R C. apply reachable_Inv in R as (Hb & Hh).
  destruct (remove_total root x Hh) as (mid & b & E & Hh').
  pose proof (remove_flag _ _ _ _ E) as F. rewrite C in F. subst b.
  pose proof (remove_bst _ _ _ _ Hb E) as Hb'.
  destruct (insert_total mid x Hh') as (root' & b & E' & _).
  pose proof (insert_flag _ _ _ _ E') as F.
  rewrite (remove_contain _ _ _ _ x Hb E), Z.eqb_refl in F. cbn in F. subst b.
  exists mid, root'. repeat split; auto.
  apply sorted_perm_eq.
  - apply bst_sorted_iff. exact (insert_bst _ _ _ _ Hb' E').
  - now apply bst_sorted_iff.
  - etransitivity; [symmetry; apply (insert_perm _ _ _ E')|].
    symmetry. apply (remove_perm _ _ _ Hb E).
Qed.

Lemma X14_remove_then_insert_witness :
  reachable tree_seven /\ contain tree_seven 50 = true /\
  exists mid root',
    remove tree_seven 50 = Some (mid, true) /\
    insert mid 50 = Some (root', true) /\
    in_order root' = in_order tree_seven.
Proof.
  assert (R : reachable tree_seven).
  { exists [Insert 50; Insert 30; Insert 70; Insert 20; Insert 40;
            Insert 60; Insert 80],
      [true; true; true; true; true; true; true].
    reflexivity. }
  assert (C : contain tree_seven 50 = true) by reflexivity.
  split; [exact R|]. split; [exact C|].
  apply (X14_remove_then_insert tree_seven 50 R C).
Defined.

Lemma in_order_nil_nullptr (node : TreeNode) :
  in_order node = [] -> node = nullptr.
Proof.
  destruct node as [|d l r h]; [reflexivity|].
  rewrite in_order_Node. intros E.
  destruct (in_order l); discriminate.
Qed.

Lemma remove_all_from (l : list Z) (root : TreeNode) :
  Inv root -> Permutation l (in_order root) ->
  run root (map Remove l) = Some (nullptr, repeat true (length l)).
Proof.
  revert root. induction l as [|x l IH]; intros root HI P.
  - apply Permutation_nil in P. apply in_order_nil_nullptr in P. now subst.
  - pose proof HI as (Hb & Hh).
    destruct (remove_total root x Hh) as (root' & b & E & _).
    pose proof (remove_flag _ _ _ _ E) as F.
    assert (C : contain root x = true).
    { apply contain_in; [assumption|].
      apply (Permutation_in _ P). now left. }
    rewrite C in F. subst b.
    assert (HI' : Inv root') by (apply (step_Inv root (Remove x) _ _ HI E)).
    assert (P' : Permutation l (in_order root')).
    { apply (Permutation_cons_inv (a := x)).
      etransitivity; [exact P | apply (remove_perm _ _ _ Hb E)]. }
    cbn [map run step length repeat]. rewrite E. cbn [bind].
    rewrite (IH _ HI' P'). reflexivity.
Qed.

(** X15.  From a reachable state, removing the stored values one by one,
    in any order, succeeds at every call and ends in the empty tree. *)
Theorem X15_removing_everything_empties (root : TreeNode) (l : list Z) :
  reachable root -> Permutation l (in_order root) ->
  run root (map Remove l) = Some (nullptr, repeat true (length l)).
Proof.
  intros R P. apply remove_all_from; [exact (reachable_Inv _ R) | exact P].
Qed.

Lemma X15_removing_everything_empties_witness :
  reachable tree_seven /\
  Permutation [80; 70; 60; 50; 40; 30; 20] (in_order tree_seven) /\
  run tree_seven (map Remove [80; 70; 60; 50; 40; 30; 20])
    = Some (nullptr, repeat true (length [80; 70; 60; 50; 40; 30; 20])).
Proof.
  assert (R : reachable tree_seven).
  { exists [Insert 50; Insert 30; Insert 70; Insert 20; Insert 40;
            Insert 60; Insert 80],
      [true; true; true; true; true; true; true].
    reflexivity. }
  assert (P : Permutation [80; 70; 60; 50; 40; 30; 20] (in_order tree_seven)).
  { exact (Permutation_sym (Permutation_rev [20; 30; 40; 50; 60; 70; 80])). }
  split; [exact R|]. split; [exact P|].
  apply (X15_removing_everything_empties tree_seven _ R P).
Defined.

(** X16.  Two reachable states in which [contain] answers alike for
    every value have the same [in_order()] sequence, whatever calls
    built them and whatever their shapes. *)
Theorem X16_in_order_depends_on_members (root1 root2 : TreeNode) :
  reachable root1 -> reachable root2 ->
  (forall x, contain root1 x = contain root2 x) ->
  in_order root1 = in_order root2.
Proof.
  intros R1 R2 M.
  apply reachable_Inv in R1 as (Hb1 & _).
  apply reachable_Inv in R2 as (Hb2 & _).
  apply sorted_same_members_eq; try now apply bst_sorted_iff.
  intros x. rewrite <- !contain_in by assumption. now rewrite M.
Qed.

Lemma X16_in_order_depends_on_members_witness :
  reachable (Node 20 (leaf 10 0) nullptr 1) /\
  reachable (Node 10 nullptr (leaf 20 0) 1) /\
  (forall x, contain (Node 20 (leaf 10 0) nullptr 1) x
             = contain (Node 10 nullptr (leaf 20 0) 1) x) /\
  in_order (Node 20 (leaf 10 0) nullptr 1)
    = in_order (Node 10 nullptr (leaf 20 0) 1).
Proof.
  assert (R1 : reachable (Node 20 (leaf 10 0) nullptr 1)).
  { exists [Insert 10; Insert 20], [true; true]. reflexivity. }
  assert (R2 : reachable (Node 10 nullptr (leaf 20 0) 1)).
  { exists [Insert 20; Insert 10], [true; true]. reflexivity. }
  assert (M : forall x, contain (Node 20 (leaf 10 0) nullptr 1) x
                        = contain (Node 10 nullptr (leaf 20 0) 1) x).
  { intros x. unfold leaf. cbn [contain].
    destruct (x =? 20) eqn:E1, (x =? 10) eqn:E2,
             (x <? 20) eqn:E3, (x <? 10) eqn:E4;
      zbool; try reflexivity; lia. }
  split; [exact R1|]. split; [exact R2|]. split; [exact M|].
  apply (X16_in_order_depends_on_members _ _ R1 R2 M).
Defined.

(** ** Lookup and balance check on arbitrary trees *)

(** X17.  On any tree, search tree or not, [contain] answers true only
    for a value that is stored in the tree. *)
Theorem X17_contain_only_stored_values (node : TreeNode) (x : Z) :
  contain node x = true -> In x (in_order node).
Proof.
  induction node as [|d l IHl r IHr h]; cbn [contain].
  - discriminate.
  - rewrite in_order_Node, in_app_iff. cbn [In].
    destruct (x =? d) eqn:E; zbool; [auto|].
    destruct (x <? d); auto.
Qed.

Lemma X17_contain_only_stored_values_witness :
  contain (Node 20 (leaf 30 0) (leaf 25 0) 1) 25 = true /\
  In 25 (in_order (Node 20 (leaf 30 0) (leaf 25 0) 1)).
Proof.
  assert (C : contain (Node 20 (leaf 30 0) (leaf 25 0) 1) 25 = true)
    by reflexivity.
  split; [exact C | apply (X17_contain_only_stored_values _ _ C)].
Defined.

(** X18.  [is_balanced] looks at the pointer structure only: on two
    trees of the same shape it returns the same verdict and the same
    height, whatever values and [height] fields they store. *)
Theorem X18_is_balanced_reads_shape_only (a b : TreeNode) :
  same_shape a b ->
  is_balanced_aux a = is_balanced_aux b /\ is_balanced a = is_balanced b.
Proof.
  intros S.
  assert (E : is_balanced_aux a = is_balanced_aux b).
  { revert b S. induction a as [|ad al IHl ar IHr ah]; intros [|bd bl br bh] S;
      cbn [same_shape] in S; try contradiction; [reflexivity|].
    destruct S as (Sl & Sr).
    cbn [is_balanced_aux]. now rewrite (IHl _ Sl), (IHr _ Sr). }
  split; [exact E | unfold is_balanced; now rewrite E].
Qed.

Lemma X18_is_balanced_reads_shape_only_witness :
  same_shape tree_10_20_30 (Node 7 (leaf 9 5) (leaf 8 (-3)) 0) /\
  is_balanced_aux tree_10_20_30
    = is_balanced_aux (Node 7 (leaf 9 5) (leaf 8 (-3)) 0) /\
  is_balanced tree_10_20_30 = is_balanced (Node 7 (leaf 9 5) (leaf 8 (-3)) 0).
Proof.
  assert (S : same_shape tree_10_20_30 (Node 7 (leaf 9 5) (leaf 8 (-3)) 0)).
  { cbn. tauto. }
  split; [exact S | apply (X18_is_balanced_reads_shape_only _ _ S)].
Defined.

Lemma is_balanced_aux_depth (node : TreeNode) :
  snd (is_balanced_aux node) = depth node.
Proof.
  induction node as [|d l IHl r IHr h]; [reflexivity|].
  cbn [is_balanced_aux depth snd]. now rewrite IHl, IHr.
Qed.

(** X19.  The pair computed by [is_balanced(node)] is right: its flag is
    true exactly when, at every node of the subtree, the depths of the
    two children differ by at most 1, and its second component is the
    depth of the subtree. *)
Theorem X19_is_balanced_decides_balance (root : TreeNode) :
  (is_balanced root = true <-> balanced_everywhere root) /\
  snd (is_balanced_aux root) = depth root.
Proof.
  split; [|apply is_balanced_aux_depth].
  unfold is_balanced.
  induction root as [|d l IHl r IHr h].
  - cbn. tauto.
  - cbn [is_balanced_aux fst balanced_everywhere].
    rewrite !andb_true_iff, Z.leb_le, IHl, IHr, !is_balanced_aux_depth.
    tauto.
Qed.

End AVL.
